(** * Chart animator: point editing and the animation loop

    A shallow embedding of [src/app/[locale]/chart-animator/page.tsx]
    (the [ChartAnimatorPage] component) and the properties of its point
    list, hit-testing and animation state machine.

    Conventions of the embedding.

    - A JavaScript [number] is an exact rational [Qc]: the finite doubles
      without rounding.  [NaN] and the infinities are not represented; the
      only unguarded divisions of the source divide by the width and the
      height of the canvas rectangle, and the statements that depend on
      them assume a canvas of positive width and height.
    - [Math.sqrt] is never evaluated: a distance is kept as the square
      root of a rational ([Dist]) and compared through its square, which
      is exact because the square root is strictly increasing.
    - The properties of hit-testing that depend on the rounding of the
      stored coordinates and of [Math.sqrt] are stated on a second
      embedding of the pointer-down handler, [Double], whose numbers are
      IEEE 754 binary64 (the primitive floats).
    - The component state is one record [State]: the values held by
      [useState], the three [useRef] cells, and the browser's table of
      pending [requestAnimationFrame] callbacks.  A handler is a function
      [State -> State] that includes the re-render it causes and the
      effects that run when [pathD] has changed.
    - The updater passed to [setProgress] is run at the call, as React
      does for a component with no pending update; [stepDeferred] is the
      other order, and [stepDeferred_agrees] relates the two. *)

From Stdlib Require Import QArith Qcanon Lqa Lia Arith List String Bool PArith.
Import ListNotations.

Open Scope Qc_scope.

(** ** Numbers *)

Definition num : Set := Qc.

Definition ofZ (z : Z) : num := Q2Qc (inject_Z z).

(** [a < b], [a <= b] and [a === b] on numbers. *)
Definition ltb (a b : num) : bool :=
  match a ?= b with Lt => true | _ => false end.

Definition leb (a b : num) : bool :=
  match a ?= b with Gt => false | _ => true end.

Definition eqb (a b : num) : bool :=
  match a ?= b with Eq => true | _ => false end.

Definition Math_min (a b : num) : num := if leb a b then a else b.

Definition Math_max (a b : num) : num := if leb a b then b else a.

(** A distance: [Infinity], or [Math.sqrt q]. *)
Inductive Dist : Set :=
| Infinity : Dist
| Sqrt : num -> Dist.

Definition Math_sqrt (q : num) : Dist := Sqrt q.

(** [a < b] on distances; the radicands are sums of squares. *)
Definition dist_ltb (a b : Dist) : bool :=
  match a, b with
  | Sqrt p, Sqrt q => ltb p q
  | Sqrt _, Infinity => true
  | Infinity, _ => false
  end.

(** [a < n] for a distance [a] and a non-negative number [n]. *)
Definition dist_ltb_num (a : Dist) (n : num) : bool :=
  match a with
  | Sqrt p => ltb p (n * n)
  | Infinity => false
  end.

(** ** Data model *)

Module ChartPoint.
Record t : Set := mk { id : string; x : num; y : num }.
End ChartPoint.
Abbreviation ChartPoint := ChartPoint.t.

Inductive AnimationState : Set := idle | running | paused.

(** The client coordinates of a [React.PointerEvent]. *)
Record PointerEvent : Set := { clientX : num; clientY : num }.

(** The result of [getBoundingClientRect]. *)
Module DOMRect.
Record t : Set := mk { left : num; top : num; width : num; height : num }.
End DOMRect.
Abbreviation DOMRect := DOMRect.t.

(** The path description [pathD]: the string ["M x% y% L x% y% ..."] kept
    as its list of commands.  Two such strings are equal exactly when the
    lists are. *)
Inductive PathCmd : Set :=
| M : num -> num -> PathCmd
| L : num -> num -> PathCmd.

(** What the function [step] created by one call of [startAnimation]
    closes over: the [speed] and the [pathLength] of that render. *)
Record Closure : Set := { cl_speed : num; cl_pathLength : num }.

Record State : Set := mkState {
  (* useState *)
  points : list ChartPoint;
  draggingId : option string;
  progress : num;
  pathLength : num;
  animationState : AnimationState;
  speed : num;
  (* useRef *)
  frameRef : option positive;
  lastTimestampRef : option num;
  isAnimatingRef : bool;
  (* the browser: pending animation frame callbacks, next handle *)
  rafCallbacks : list (positive * Closure);
  rafNext : positive
}.

Definition initialState : State :=
  {| points := []; draggingId := None; progress := 0; pathLength := 0;
     animationState := idle; speed := ofZ 120;
     frameRef := None; lastTimestampRef := None; isAnimatingRef := false;
     rafCallbacks := []; rafNext := 1%positive |}.

Definition set_points (v : list ChartPoint) (s : State) : State :=
  mkState v (draggingId s) (progress s) (pathLength s) (animationState s)
    (speed s) (frameRef s) (lastTimestampRef s) (isAnimatingRef s)
    (rafCallbacks s) (rafNext s).

Definition setDraggingId (v : option string) (s : State) : State :=
  mkState (points s) v (progress s) (pathLength s) (animationState s)
    (speed s) (frameRef s) (lastTimestampRef s) (isAnimatingRef s)
    (rafCallbacks s) (rafNext s).

Definition set_progress (v : num) (s : State) : State :=
  mkState (points s) (draggingId s) v (pathLength s) (animationState s)
    (speed s) (frameRef s) (lastTimestampRef s) (isAnimatingRef s)
    (rafCallbacks s) (rafNext s).

Definition setPathLength (v : num) (s : State) : State :=
  mkState (points s) (draggingId s) (progress s) v (animationState s)
    (speed s) (frameRef s) (lastTimestampRef s) (isAnimatingRef s)
    (rafCallbacks s) (rafNext s).

Definition setAnimationState (v : AnimationState) (s : State) : State :=
  mkState (points s) (draggingId s) (progress s) (pathLength s) v
    (speed s) (frameRef s) (lastTimestampRef s) (isAnimatingRef s)
    (rafCallbacks s) (rafNext s).

(** [setSpeed], as called by the range control's [onChange]. *)
Definition setSpeed (v : num) (s : State) : State :=
  mkState (points s) (draggingId s) (progress s) (pathLength s)
    (animationState s) v (frameRef s) (lastTimestampRef s)
    (isAnimatingRef s) (rafCallbacks s) (rafNext s).

Definition set_frameRef (v : option positive) (s : State) : State :=
  mkState (points s) (draggingId s) (progress s) (pathLength s)
    (animationState s) (speed s) v (lastTimestampRef s) (isAnimatingRef s)
    (rafCallbacks s) (rafNext s).

Definition set_lastTimestampRef (v : option num) (s : State) : State :=
  mkState (points s) (draggingId s) (progress s) (pathLength s)
    (animationState s) (speed s) (frameRef s) v (isAnimatingRef s)
    (rafCallbacks s) (rafNext s).

Definition set_isAnimatingRef (v : bool) (s : State) : State :=
  mkState (points s) (draggingId s) (progress s) (pathLength s)
    (animationState s) (speed s) (frameRef s) (lastTimestampRef s) v
    (rafCallbacks s) (rafNext s).

Definition set_raf (v : list (positive * Closure)) (n : positive)
  (s : State) : State :=
  mkState (points s) (draggingId s) (progress s) (pathLength s)
    (animationState s) (speed s) (frameRef s) (lastTimestampRef s)
    (isAnimatingRef s) v n.

(** ** The browser's animation frame table *)

Definition drop_handle (h : positive) (cbs : list (positive * Closure))
  : list (positive * Closure) :=
  filter (fun hc => negb (Pos.eqb (fst hc) h)) cbs.

Fixpoint find_handle (h : positive) (cbs : list (positive * Closure))
  : option Closure :=
  match cbs with
  | [] => None
  | (h', cl) :: rest => if Pos.eqb h' h then Some cl else find_handle h rest
  end.

(** [cancelAnimationFrame(h)]: no effect if [h] is not pending. *)
Definition cancelAnimationFrame (h : positive) (s : State) : State :=
  set_raf (drop_handle h (rafCallbacks s)) (rafNext s) s.

(** [requestAnimationFrame(step)]: registers the callback under a fresh
    handle and returns the handle. *)
Definition requestAnimationFrame (step : Closure) (s : State)
  : positive * State :=
  (rafNext s,
   set_raf (rafCallbacks s ++ [(rafNext s, step)]) (Pos.succ (rafNext s)) s).

(** ** Derived path *)

Definition pathD (pts : list ChartPoint) : list PathCmd :=
  match pts with
  | [] => []
  | first :: rest =>
      M (ChartPoint.x first) (ChartPoint.y first)
        :: map (fun point => L (ChartPoint.x point) (ChartPoint.y point)) rest
  end.

Definition PathCmd_eqb (a b : PathCmd) : bool :=
  match a, b with
  | M x1 y1, M x2 y2 => eqb x1 x2 && eqb y1 y2
  | L x1 y1, L x2 y2 => eqb x1 x2 && eqb y1 y2
  | _, _ => false
  end.

Fixpoint pathD_eqb (a b : list PathCmd) : bool :=
  match a, b with
  | [], [] => true
  | c :: a', d :: b' => PathCmd_eqb c d && pathD_eqb a' b'
  | _, _ => false
  end.

(** ** Handlers *)

Definition cancelAnimationFrameIfNeeded (s : State) : State :=
  match frameRef s with
  | Some h => set_frameRef None (cancelAnimationFrame h s)
  | None => s
  end.

Section Handlers.

(** [pathRef.current.getTotalLength()] for the rendered path. *)
Variable getTotalLength : list PathCmd -> num.

(** The first effect on [pathD]: the path element exists exactly when
    there is at least one point. *)
Definition measureEffect (s : State) : State :=
  match points s with
  | [] => setPathLength 0 s
  | _ :: _ => setPathLength (getTotalLength (pathD (points s))) s
  end.

(** The second effect on [pathD]. *)
Definition resetEffect (s : State) : State :=
  set_isAnimatingRef false
    (set_lastTimestampRef None
       (set_progress 0
          (setAnimationState idle (cancelAnimationFrameIfNeeded s)))).

(** The render after a change of [points]: both effects run when the
    dependency [pathD] differs from its previous value. *)
Definition commit (prevPathD : list PathCmd) (s : State) : State :=
  if pathD_eqb prevPathD (pathD (points s)) then s
  else resetEffect (measureEffect s).

Definition clamp100 (v : num) : num :=
  Math_min (ofZ 100) (Math_max 0 v).

Definition getRelativeCoordinates (rect : option DOMRect) (event : PointerEvent)
  : option (num * num) :=
  match rect with
  | None => None
  | Some rect =>
      let x := ((clientX event - DOMRect.left rect) / DOMRect.width rect)
               * ofZ 100 in
      let y := ((clientY event - DOMRect.top rect) / DOMRect.height rect)
               * ofZ 100 in
      Some (clamp100 x, clamp100 y)
  end.

(** The radicand [dx * dx + dy * dy] of the pixel distance from the
    pointer to a point. *)
Definition distance2 (rect : DOMRect) (event : PointerEvent)
  (point : ChartPoint) : num :=
  let px := (ChartPoint.x point / ofZ 100) * DOMRect.width rect in
  let py := (ChartPoint.y point / ofZ 100) * DOMRect.height rect in
  let dx := clientX event - DOMRect.left rect - px in
  let dy := clientY event - DOMRect.top rect - py in
  dx * dx + dy * dy.

(** The loop of [findNearestPoint], from the pair
    [(nearest, minDistance)]. *)
Fixpoint nearestLoop (rect : DOMRect) (event : PointerEvent)
  (pts : list ChartPoint) (acc : option ChartPoint * Dist)
  : option ChartPoint * Dist :=
  match pts with
  | [] => acc
  | point :: rest =>
      let distance := Math_sqrt (distance2 rect event point) in
      if dist_ltb distance (snd acc)
      then nearestLoop rect event rest (Some point, distance)
      else nearestLoop rect event rest acc
  end.

Definition findNearestPoint (rect : option DOMRect) (event : PointerEvent)
  (pts : list ChartPoint) : option ChartPoint :=
  match rect with
  | None => None
  | Some rect =>
      let '(nearest, minDistance) :=
        nearestLoop rect event pts (None, Infinity) in
      if dist_ltb_num minDistance (ofZ 18) then nearest else None
  end.

(** [onPointerDown] of the canvas; [uuid] is [crypto.randomUUID()]. *)
Definition handlePointerDown (rect : option DOMRect) (uuid : string)
  (event : PointerEvent) (s : State) : State :=
  match findNearestPoint rect event (points s) with
  | Some nearest => setDraggingId (Some (ChartPoint.id nearest)) s
  | None =>
      match getRelativeCoordinates rect event with
      | None => s
      | Some (rx, ry) =>
          let newPoint := ChartPoint.mk uuid rx ry in
          commit (pathD (points s)) (set_points (points s ++ [newPoint]) s)
      end
  end.

(** [!draggingId]: [null] and the empty string are falsy. *)
Definition falsy (d : option string) : bool :=
  match d with
  | None => true
  | Some i => String.eqb i EmptyString
  end.

Definition movePoint (d : option string) (rx ry : num) (point : ChartPoint)
  : ChartPoint :=
  match d with
  | Some i =>
      if String.eqb (ChartPoint.id point) i
      then ChartPoint.mk (ChartPoint.id point) rx ry
      else point
  | None => point
  end.

Definition handlePointerMove (rect : option DOMRect) (event : PointerEvent)
  (s : State) : State :=
  if falsy (draggingId s) then s
  else
    match getRelativeCoordinates rect event with
    | None => s
    | Some (rx, ry) =>
        commit (pathD (points s))
          (set_points (map (movePoint (draggingId s) rx ry) (points s)) s)
    end.

Definition stopDragging (s : State) : State := setDraggingId None s.

(** The elapsed seconds [deltaSeconds] that [step] computes when it is
    called with [timestamp] in state [s]. *)
Definition deltaSeconds (timestamp : num) (s : State) : num :=
  let last :=
    match lastTimestampRef s with
    | None => Some timestamp
    | Some l => Some l
    end in
  (timestamp - match last with Some l => l | None => 0 end) / ofZ 1000.

(** [deltaProgress] for an elapsed time of [delta] seconds. *)
Definition deltaProgress (step : Closure) (delta : num) : num :=
  let distance := cl_speed step * delta in
  if ltb 0 (cl_pathLength step) then distance / cl_pathLength step else 0.

(** The body of the updater given to [setProgress]. *)
Definition progressUpdater (step : Closure) (delta : num) (s : State)
  : State :=
  let prev := progress s in
  let next := Math_min 1 (prev + deltaProgress step delta) in
  let s' :=
    if leb 1 next
    then set_isAnimatingRef false
           (cancelAnimationFrameIfNeeded (setAnimationState paused s))
    else s in
  set_progress next s'.

(** One call of [step(timestamp)]. *)
Definition step (cl : Closure) (timestamp : num) (s : State) : State :=
  if negb (isAnimatingRef s) then s
  else
    let delta := deltaSeconds timestamp s in
    let s1 := set_lastTimestampRef (Some timestamp) s in
    let s2 := progressUpdater cl delta s1 in
    if isAnimatingRef s2
    then let '(h, s3) := requestAnimationFrame cl s2 in
         set_frameRef (Some h) s3
    else s2.

(** The same call when React defers the updater to the next render:
    the test that reschedules the callback is made before the updater
    runs, and the updater then cancels the callback it finds. *)
Definition stepDeferred (cl : Closure) (timestamp : num) (s : State)
  : State :=
  if negb (isAnimatingRef s) then s
  else
    let delta := deltaSeconds timestamp s in
    let s1 := set_lastTimestampRef (Some timestamp) s in
    let s2 :=
      if isAnimatingRef s1
      then let '(h, s') := requestAnimationFrame cl s1 in
           set_frameRef (Some h) s'
      else s1 in
    progressUpdater cl delta s2.

Definition startAnimation (s : State) : State :=
  if Nat.ltb (List.length (points s)) 2 || eqb (pathLength s) 0 then s
  else
    let s1 := setAnimationState running (set_isAnimatingRef true s) in
    let cl := {| cl_speed := speed s; cl_pathLength := pathLength s |} in
    let s2 := cancelAnimationFrameIfNeeded s1 in
    let '(h, s3) := requestAnimationFrame cl s2 in
    set_frameRef (Some h) s3.

Definition pauseAnimation (s : State) : State :=
  set_isAnimatingRef false
    (set_lastTimestampRef None
       (setAnimationState paused (cancelAnimationFrameIfNeeded s))).

Definition resetAnimation (s : State) : State :=
  set_isAnimatingRef false
    (set_lastTimestampRef None
       (setAnimationState idle
          (set_progress 0 (cancelAnimationFrameIfNeeded s)))).

(** The browser runs the pending callback [h] with [timestamp]; the
    callback leaves the table when it is run. *)
Definition animationFrame (h : positive) (timestamp : num) (s : State)
  : State :=
  match find_handle h (rafCallbacks s) with
  | None => s
  | Some cl => step cl timestamp (cancelAnimationFrame h s)
  end.

End Handlers.

(** ** Events and reachable states *)

(** What the page can receive: pointer events on the canvas and on a
    point marker, the three buttons, the range control and the browser's
    animation frame.  [MarkerPointerDown] is the marker's own handler;
    the same pointer-down then reaches the canvas as a [PointerDown].
    [PointerUp] stands for pointer-up and pointer-leave. *)
Inductive Event : Set :=
| PointerDown (rect : option DOMRect) (uuid : string) (event : PointerEvent)
| MarkerPointerDown (i : string)
| PointerMove (rect : option DOMRect) (event : PointerEvent)
| PointerUp
| Start
| Pause
| Reset
| SpeedChange (v : num)
| AnimationFrame (h : positive) (timestamp : num).

Definition handle (getTotalLength : list PathCmd -> num) (ev : Event)
  (s : State) : State :=
  match ev with
  | PointerDown rect uuid event =>
      handlePointerDown getTotalLength rect uuid event s
  | MarkerPointerDown i => setDraggingId (Some i) s
  | PointerMove rect event => handlePointerMove getTotalLength rect event s
  | PointerUp => stopDragging s
  | Start => startAnimation s
  | Pause => pauseAnimation s
  | Reset => resetAnimation s
  | SpeedChange v => setSpeed v s
  | AnimationFrame h timestamp => animationFrame h timestamp s
  end.

Definition run (getTotalLength : list PathCmd -> num) (evs : list Event)
  (s : State) : State :=
  fold_left (fun st ev => handle getTotalLength ev st) evs s.

Definition ids (pts : list ChartPoint) : list string :=
  map ChartPoint.id pts.

(** A canvas that is mounted and has a positive width and height. *)
Definition mounted (rect : option DOMRect) : Prop :=
  match rect with
  | Some r => 0 < DOMRect.width r /\ 0 < DOMRect.height r
  | None => False
  end.

(** What the environment guarantees about the data of an event: a laid
    out canvas, a fresh non-empty UUID, a marker of an existing point, a
    value the range control can hold ([min=20], [max=300]), and frame
    timestamps that do not go back. *)
Definition admissible (ev : Event) (s : State) : Prop :=
  match ev with
  | PointerDown rect uuid _ =>
      mounted rect /\ uuid <> EmptyString /\ ~ In uuid (ids (points s))
  | MarkerPointerDown i => In i (ids (points s))
  | PointerMove rect _ => mounted rect
  | SpeedChange v => ofZ 20 <= v /\ v <= ofZ 300
  | AnimationFrame _ timestamp =>
      match lastTimestampRef s with
      | Some l => l <= timestamp
      | None => True
      end
  | PointerUp | Start | Pause | Reset => True
  end.

Inductive reachable (getTotalLength : list PathCmd -> num) : State -> Prop :=
| reachable_init : reachable getTotalLength initialState
| reachable_step : forall s ev,
    reachable getTotalLength s ->
    admissible ev s ->
    reachable getTotalLength (handle getTotalLength ev s).




Definition in_percent (v : num) : Prop := 0 <= v /\ v <= ofZ 100.

Definition point_in_canvas (p : ChartPoint) : Prop :=
  in_percent (ChartPoint.x p) /\ in_percent (ChartPoint.y p).

(** The pending callbacks are none when the loop is stopped, and exactly
    the one held by [frameRef] while it runs. *)
Definition frame_tracked (s : State) : Prop :=
  (rafCallbacks s = [] /\ isAnimatingRef s = false)
  \/ (exists h cl,
        rafCallbacks s = [(h, cl)] /\ frameRef s = Some h
        /\ isAnimatingRef s = true /\ 0 <= cl_speed cl).

Record Inv (s : State) : Prop := {
  inv_running : isAnimatingRef s = true <-> animationState s = running;
  inv_frame : frame_tracked s;
  inv_progress : 0 <= progress s /\ progress s <= 1;
  inv_speed : ofZ 20 <= speed s /\ speed s <= ofZ 300;
  inv_points : Forall point_in_canvas (points s);
  inv_ids : NoDup (ids (points s)) /\ ~ In EmptyString (ids (points s));
  inv_drag : forall d, draggingId s = Some d -> In d (ids (points s));
  inv_stale : forall l, lastTimestampRef s = Some l ->
                        isAnimatingRef s = false -> progress s = 1
}.

(** The pair [(nearest, minDistance)] after the points [seen]: nothing
    yet, or a point of [seen] that is not farther than any other together
    with its distance. *)
Definition nearest_of (rect : DOMRect) (event : PointerEvent)
  (seen : list ChartPoint) (acc : option ChartPoint * Dist) : Prop :=
  (seen = [] /\ acc = (None, Infinity))
  \/ (exists p,
        acc = (Some p, Sqrt (distance2 rect event p)) /\ In p seen
        /\ forall q, In q seen ->
                     distance2 rect event p <= distance2 rect event q).

(** The capture radius, squared. *)
Definition radius2 : num := ofZ 18 * ofZ 18.





(** ** Hit-testing in binary64

    The pointer-down handler once more, with the numbers of the source:
    IEEE 754 binary64, as Rocq's primitive floats, so that [Math.sqrt],
    the products and the quotients are rounded as the code rounds them.
    [Editor] holds the two state variables that the handler writes. *)

From Stdlib Require Floats.

Module Double.

Import Floats.
Local Open Scope float_scope.

Record ChartPoint : Set := mkPoint { id : string; x : float; y : float }.

Record PointerEvent : Set := mkEvent { clientX : float; clientY : float }.

Record DOMRect : Set :=
  mkRect { left : float; top : float; width : float; height : float }.

Record Editor : Set :=
  mkEditor { points : list ChartPoint; draggingId : option string }.

(** [Math.max] and [Math.min] of two numbers: [NaN] if one of them is
    [NaN], and [+0] is larger than [-0]. *)
Definition Math_max (a b : float) : float :=
  if is_nan a || is_nan b then nan
  else if a <? b then b
  else if b <? a then a
  else if is_zero a && is_zero b
       then (if get_sign a && get_sign b then neg_zero else zero)
       else a.

Definition Math_min (a b : float) : float :=
  if is_nan a || is_nan b then nan
  else if a <? b then a
  else if b <? a then b
  else if is_zero a && is_zero b
       then (if get_sign a || get_sign b then neg_zero else zero)
       else a.

Definition getRelativeCoordinates (rect : option DOMRect)
  (event : PointerEvent) : option (float * float) :=
  match rect with
  | None => None
  | Some rect =>
      let x := ((clientX event - left rect) / width rect) * 100 in
      let y := ((clientY event - top rect) / height rect) * 100 in
      Some (Math_min 100 (Math_max 0 x), Math_min 100 (Math_max 0 y))
  end.

(** The [distance] that the loop of [findNearestPoint] computes for a
    point. *)
Definition distance (rect : DOMRect) (event : PointerEvent)
  (point : ChartPoint) : float :=
  let px := (x point / 100) * width rect in
  let py := (y point / 100) * height rect in
  let dx := clientX event - left rect - px in
  let dy := clientY event - top rect - py in
  sqrt (dx * dx + dy * dy).

Fixpoint nearestLoop (rect : DOMRect) (event : PointerEvent)
  (pts : list ChartPoint) (acc : option ChartPoint * float)
  : option ChartPoint * float :=
  match pts with
  | [] => acc
  | point :: rest =>
      let d := distance rect event point in
      if d <? snd acc
      then nearestLoop rect event rest (Some point, d)
      else nearestLoop rect event rest acc
  end.

Definition findNearestPoint (rect : option DOMRect) (event : PointerEvent)
  (pts : list ChartPoint) : option ChartPoint :=
  match rect with
  | None => None
  | Some rect =>
      let '(nearest, minDistance) :=
        nearestLoop rect event pts (None, infinity) in
      if minDistance <? 18 then nearest else None
  end.

Definition handlePointerDown (rect : option DOMRect) (uuid : string)
  (event : PointerEvent) (s : Editor) : Editor :=
  match findNearestPoint rect event (points s) with
  | Some nearest => mkEditor (points s) (Some (id nearest))
  | None =>
      match getRelativeCoordinates rect event with
      | None => s
      | Some (rx, ry) =>
          mkEditor (points s ++ [mkPoint uuid rx ry]) (draggingId s)
      end
  end.

(** [a < b] on computed distances, as a proposition. *)
Definition below (a b : float) : Prop := (a <? b) = true.

(** The rational number that a finite double is. *)
Definition exact (f : float) : Q :=
  match Prim2SF f with
  | S754_finite s m e =>
      (inject_Z (if s then Z.neg m else Z.pos m) * Qpower (2 # 1) e)%Q
  | _ => 0%Q
  end.


(** A 200 x 100 canvas at the origin, pointer events at whole pixels,
    and the editor after a list of clicks. *)
Definition canvas : DOMRect := mkRect 0 0 200 100.

Definition pointerAt (cx cy : float) : PointerEvent := mkEvent cx cy.

Definition noPoints : Editor := mkEditor [] None.

Definition afterClicks (clicks : list (string * PointerEvent)) : Editor :=
  fold_left
    (fun s c => handlePointerDown (Some canvas) (fst c) (snd c) s)
    clicks noPoints.





(** Two points placed by clicks at (35,28) and (3,20), and a
    pointer-down at (20,20). *)
Definition twoClicks : Editor :=
  afterClicks [("a"%string, pointerAt 35 28); ("b"%string, pointerAt 3 20)].

Definition between_twoClicks : PointerEvent := pointerAt 20 20.

End Double.

(** ** A sample session

    A 200 x 100 canvas at the origin, a surface that measures every path
    as 100 px, and the points of the scenario (10,10), (50,50), (90,10). *)

Definition canvas : DOMRect := DOMRect.mk 0 0 (ofZ 200) (ofZ 100).

Definition measure100 : list PathCmd -> num := fun _ => ofZ 100.

Definition pointerAt (cx cy : Z) : PointerEvent :=
  {| clientX := ofZ cx; clientY := ofZ cy |}.

Definition twoPoints : State :=
  run measure100
    [PointerDown (Some canvas) "a" (pointerAt 20 10);
     PointerDown (Some canvas) "b" (pointerAt 100 50)]
    initialState.

(** Started, first frame at 0 ms, second frame at 100 ms. *)
Definition midRun : State :=
  run measure100
    [Start; AnimationFrame 1 0; AnimationFrame 2 (ofZ 100)] twoPoints.

(** Started, first frame at 0 ms, second frame at 1000 ms: at 120 px/s
    the 100 px path is finished. *)
Definition finishedRun : State :=
  run measure100
    [Start; AnimationFrame 1 0; AnimationFrame 2 (ofZ 1000)] twoPoints.

(** A click at (90,10), away from both points. *)
Definition thirdClick : Event :=
  PointerDown (Some canvas) "c" (pointerAt 180 10).

(** Paused in the middle of the run, with point ["a"] grabbed. *)
Definition pausedDrag : State :=
  run measure100 [Pause; MarkerPointerDown "a"] midRun.


(** One point only; and two points on a surface that measures 0. *)
Definition onePoint : State :=
  run measure100 [PointerDown (Some canvas) "a" (pointerAt 20 10)]
    initialState.

Definition unmeasured : State :=
  run (fun _ => 0)
    [PointerDown (Some canvas) "a" (pointerAt 20 10);
     PointerDown (Some canvas) "b" (pointerAt 100 50)]
    initialState.

(** ** The loop over several frames, and what the page derives *)

(** The browser runs the callback whose handle [frameRef] holds, if it is
    pending; [frames] does so once for each timestamp of a list. *)
Definition nextFrame (timestamp : num) (s : State) : State :=
  match frameRef s with
  | Some h => animationFrame h timestamp s
  | None => s
  end.

Definition frames (timestamps : list num) (s : State) : State :=
  fold_left (fun st timestamp => nextFrame timestamp st) timestamps s.

(** Any callbacks, by handle, with any timestamps. *)
Definition anyFrames (calls : list (positive * num)) (s : State) : State :=
  fold_left (fun st call => animationFrame (fst call) (snd call) st) calls s.

(** Every event of a sequence is admissible in the state it reaches. *)
Fixpoint admissible_run (getTotalLength : list PathCmd -> num)
  (evs : list Event) (s : State) : Prop :=
  match evs with
  | [] => True
  | ev :: rest =>
      admissible ev s
      /\ admissible_run getTotalLength rest (handle getTotalLength ev s)
  end.

(** What the first effect on [pathD] stores for a path. *)
Definition measuredLength (getTotalLength : list PathCmd -> num)
  (d : list PathCmd) : num :=
  match d with
  | [] => 0
  | _ :: _ => getTotalLength d
  end.

(** The function of the [animatedMarker] memo, with
    [pathRef.current.getPointAtLength] as a parameter; the path element
    exists exactly when there is at least one point. *)
Definition animatedMarker
  (getPointAtLength : list PathCmd -> num -> num * num) (s : State)
  : option (num * num) :=
  match points s with
  | [] => None
  | _ :: _ =>
      if eqb (pathLength s) 0 || leb (progress s) 0 then None
      else Some (getPointAtLength (pathD (points s))
                   (pathLength s * progress s))
  end.

(** The [strokeDashoffset] attribute of the path. *)
Definition strokeDashoffset (s : State) : num :=
  pathLength s - pathLength s * progress s.

(** The pointer is over the canvas rectangle. *)
Definition inside (rect : DOMRect) (event : PointerEvent) : Prop :=
  DOMRect.left rect <= clientX event
  /\ clientX event <= DOMRect.left rect + DOMRect.width rect
  /\ DOMRect.top rect <= clientY event
  /\ clientY event <= DOMRect.top rect + DOMRect.height rect.

(** A marker position that only reports the arc length. *)
Definition markerAt : list PathCmd -> num -> num * num :=
  fun _ l => (l, 0).

(** * Properties *)

(** ** Numbers *)

Lemma ltb_spec (a b : num) : reflect (a < b) (ltb a b).
Proof.
  unfold ltb.
  destruct (a ?= b) eqn:E; constructor; rewrite Qclt_alt, E; congruence.
Qed.

Lemma leb_spec (a b : num) : reflect (a <= b) (leb a b).
Proof.
  unfold leb.
  destruct (a ?= b) eqn:E; constructor; rewrite Qcle_alt, E; congruence.
Qed.

Lemma eqb_spec (a b : num) : reflect (a = b) (eqb a b).
Proof.
  unfold eqb.
  destruct (a ?= b) eqn:E; constructor; rewrite Qceq_alt, E; congruence.
Qed.

Lemma ltb_true (a b : num) : ltb a b = true <-> a < b.
Proof. symmetry. apply reflect_iff, ltb_spec. Qed.

Lemma leb_true (a b : num) : leb a b = true <-> a <= b.
Proof. symmetry. apply reflect_iff, leb_spec. Qed.

Lemma eqb_true (a b : num) : eqb a b = true <-> a = b.
Proof. symmetry. apply reflect_iff, eqb_spec. Qed.

Lemma ltb_false (a b : num) : ltb a b = false <-> b <= a.
Proof.
  destruct (ltb_spec a b) as [H | H]; split; intro K; try discriminate; auto.
  - exfalso. exact (Qcle_not_lt _ _ K H).
  - now apply Qcnot_lt_le.
Qed.

Lemma leb_false (a b : num) : leb a b = false <-> b < a.
Proof.
  destruct (leb_spec a b) as [H | H]; split; intro K; try discriminate; auto.
  - exfalso. exact (Qclt_not_le _ _ K H).
  - now apply Qcnot_le_lt.
Qed.

(** Closed comparisons are settled by evaluation. *)
Ltac num_eval :=
  first [ apply ltb_true | apply leb_true | apply eqb_true
        | apply ltb_false | apply leb_false ];
  vm_compute; reflexivity.

Lemma Math_min_le_l (a b : num) : Math_min a b <= a.
Proof.
  unfold Math_min. destruct (leb a b) eqn:E.
  - apply Qcle_refl.
  - apply leb_false in E. now apply Qclt_le_weak.
Qed.

Lemma Math_min_glb (a b c : num) : c <= a -> c <= b -> c <= Math_min a b.
Proof. intros Ha Hb. unfold Math_min. now destruct (leb a b). Qed.

Lemma Math_max_ge_l (a b : num) : a <= Math_max a b.
Proof.
  unfold Math_max. destruct (leb a b) eqn:E.
  - now apply leb_true.
  - apply Qcle_refl.
Qed.

Lemma zero_le_hundred : 0 <= ofZ 100.
Proof. num_eval. Qed.

Lemma clamp100_in_percent (v : num) : in_percent (clamp100 v).
Proof.
  unfold in_percent, clamp100. split.
  - apply Math_min_glb; [apply zero_le_hundred | apply Math_max_ge_l].
  - apply Math_min_le_l.
Qed.

(** Rational side conditions, through [Q] and [lra]. *)
Ltac to_Q :=
  unfold Qcle, Qclt, Qcdiv, Qcminus, Qcplus, Qcmult, Qcopp, Qcinv, ofZ in *;
  repeat (cbn [this Q2Qc] in *; rewrite ?Qred_correct in *).

Lemma num_sub_self (a : num) : a - a = 0.
Proof. ring. Qed.

Lemma num_div_nonneg (a b : num) : 0 <= a -> 0 < b -> 0 <= a / b.
Proof.
  intros Ha Hb. unfold Qcdiv.
  assert (Hi : 0 <= / b).
  { to_Q. apply Qinv_le_0_compat. lra. }
  replace 0 with (0 * / b) by ring.
  now apply Qcmult_le_compat_r.
Qed.

Lemma num_mul_nonneg (a b : num) : 0 <= a -> 0 <= b -> 0 <= a * b.
Proof.
  intros Ha Hb. replace 0 with (0 * b) by ring.
  now apply Qcmult_le_compat_r.
Qed.

Lemma num_le_add_nonneg (a d : num) : 0 <= d -> a <= a + d.
Proof. intros H. to_Q. lra. Qed.

Lemma num_sub_nonneg (a b : num) : b <= a -> 0 <= a - b.
Proof. intros H. to_Q. lra. Qed.

(** ** [start] without a path *)

(** C5: with fewer than two points, or a measured path length of 0,
    [startAnimation] returns the state it was given: nothing changes and
    no callback is registered. *)
Theorem startAnimation_noop :
  forall s : State,
    (List.length (points s) < 2)%nat \/ pathLength s = 0 ->
    startAnimation s = s.
Proof.
  intros s H. unfold startAnimation.
  destruct H as [H | H].
  - apply Nat.ltb_lt in H. now rewrite H.
  - apply eqb_true in H. rewrite H. now rewrite orb_true_r.
Qed.

Lemma startAnimation_noop_witness :
  (List.length (points onePoint) = 1%nat
   /\ startAnimation onePoint = onePoint)
  /\ (List.length (points unmeasured) = 2%nat
      /\ pathLength unmeasured = 0
      /\ startAnimation unmeasured = unmeasured).
Proof.
  split.
  - split; [vm_compute; reflexivity|].
    apply (startAnimation_noop onePoint).
    left. vm_compute. lia.
  - split; [vm_compute; reflexivity|].
    split; [reflexivity|].
    apply (startAnimation_noop unmeasured).
    right. reflexivity.
Defined.

(** ** The frame handle *)

Lemma frameRef_cancelled (s : State) :
  frameRef (cancelAnimationFrameIfNeeded s) = None.
Proof.
  unfold cancelAnimationFrameIfNeeded.
  destruct (frameRef s) eqn:E; [reflexivity | exact E].
Qed.

Lemma drop_handle_single (h : positive) (cl : Closure) :
  drop_handle h [(h, cl)] = [].
Proof. unfold drop_handle. cbn. now rewrite Pos.eqb_refl. Qed.

(** Cancelling through [frameRef] empties the table of a state whose
    pending callback is tracked. *)
Lemma cancel_clears (s : State) :
  frame_tracked s -> rafCallbacks (cancelAnimationFrameIfNeeded s) = [].
Proof.
  intros [[Hr _] | (h & cl & Hr & Hf & _)];
    unfold cancelAnimationFrameIfNeeded.
  - destruct (frameRef s); cbn; rewrite Hr; reflexivity.
  - rewrite Hf. cbn. rewrite Hr. apply drop_handle_single.
Qed.

(** [cancelAnimationFrameIfNeeded] as one update of the state. *)
Lemma cancel_eq (s : State) :
  cancelAnimationFrameIfNeeded s
  = set_frameRef None
      (set_raf
         match frameRef s with
         | Some h => drop_handle h (rafCallbacks s)
         | None => rafCallbacks s
         end (rafNext s) s).
Proof.
  unfold cancelAnimationFrameIfNeeded.
  destruct s as [pts d pr pl st sp fr lt an cbs nx].
  destruct fr; reflexivity.
Qed.

(** ** [reset] *)

(** C9: [resetAnimation] is idempotent from any state, and the state it
    yields is idle with progress 0, no frame handle, cleared elapsed-time
    tracking and, when the pending callback was the tracked one, an empty
    callback table. *)
Theorem resetAnimation_idempotent :
  forall s : State,
    resetAnimation (resetAnimation s) = resetAnimation s
    /\ animationState (resetAnimation s) = idle
    /\ progress (resetAnimation s) = 0
    /\ frameRef (resetAnimation s) = None
    /\ lastTimestampRef (resetAnimation s) = None
    /\ isAnimatingRef (resetAnimation s) = false
    /\ (frame_tracked s -> rafCallbacks (resetAnimation s) = []).
Proof.
  intros s. repeat split.
  - unfold resetAnimation, cancelAnimationFrameIfNeeded.
    destruct s as [pts d pr pl st sp fr lt an cbs nx].
    destruct fr; reflexivity.
  - cbn. apply frameRef_cancelled.
  - intros H. cbn. now apply cancel_clears.
Qed.

(** ** The per-frame callback *)

Lemma deltaProgress_nonneg (cl : Closure) (delta : num) :
  0 <= cl_speed cl -> 0 <= delta -> 0 <= deltaProgress cl delta.
Proof.
  intros Hs Hd. unfold deltaProgress.
  destruct (ltb 0 (cl_pathLength cl)) eqn:E.
  - apply ltb_true in E. apply num_div_nonneg; [|exact E].
    now apply num_mul_nonneg.
  - apply Qcle_refl.
Qed.

Lemma deltaProgress_zero (cl : Closure) : deltaProgress cl 0 = 0.
Proof.
  unfold deltaProgress. destruct (ltb 0 (cl_pathLength cl)).
  - unfold num, Qcdiv. ring.
  - reflexivity.
Qed.

(** With a timestamp that does not go back, the elapsed time is not
    negative. *)
Lemma deltaSeconds_nonneg (timestamp : num) (s : State) :
  match lastTimestampRef s with Some l => l <= timestamp | None => True end ->
  0 <= deltaSeconds timestamp s.
Proof.
  intros H. unfold deltaSeconds.
  apply num_div_nonneg; [|num_eval].
  destruct (lastTimestampRef s).
  - now apply num_sub_nonneg.
  - apply num_sub_nonneg, Qcle_refl.
Qed.

Lemma deltaSeconds_cleared (timestamp : num) (s : State) :
  lastTimestampRef s = None -> deltaSeconds timestamp s = 0.
Proof.
  intros H. unfold deltaSeconds. rewrite H.
  rewrite num_sub_self. unfold num, Qcdiv. ring.
Qed.

(** What one call of [step] does while the loop runs, by whether the new
    progress has reached 1. *)
Lemma step_running (cl : Closure) (timestamp : num) (s : State) :
  isAnimatingRef s = true ->
  let next :=
    Math_min 1 (progress s + deltaProgress cl (deltaSeconds timestamp s)) in
  progress (step cl timestamp s) = next
  /\ lastTimestampRef (step cl timestamp s) = Some timestamp
  /\ (1 <= next ->
      animationState (step cl timestamp s) = paused
      /\ isAnimatingRef (step cl timestamp s) = false
      /\ frameRef (step cl timestamp s) = None
      /\ rafCallbacks (step cl timestamp s)
         = rafCallbacks (cancelAnimationFrameIfNeeded s))
  /\ (next < 1 ->
      animationState (step cl timestamp s) = animationState s
      /\ isAnimatingRef (step cl timestamp s) = true
      /\ frameRef (step cl timestamp s) = Some (rafNext s)
      /\ rafCallbacks (step cl timestamp s)
         = rafCallbacks s ++ [(rafNext s, cl)]).
Proof.
  intros Han next. unfold step. rewrite Han. cbn [negb].
  unfold progressUpdater. cbn [progress set_lastTimestampRef].
  fold next. rewrite !cancel_eq.
  destruct (leb 1 next) eqn:E.
  - apply leb_true in E. cbn.
    split; [reflexivity|]. split; [reflexivity|]. split.
    + intros _. repeat split.
    + intros H. exfalso. exact (Qcle_not_lt _ _ E H).
  - apply leb_false in E. cbn. rewrite Han. cbn.
    split; [reflexivity|]. split; [reflexivity|]. split.
    + intros H. exfalso. exact (Qcle_not_lt _ _ H E).
    + intros _. repeat split; exact Han.
Qed.

Lemma Math_min_1_id (p : num) : p <= 1 -> Math_min 1 p = p.
Proof.
  intros H. unfold Math_min. destruct (leb 1 p) eqn:E; [|reflexivity].
  apply leb_true in E. now apply Qcle_antisym.
Qed.

Lemma animationFrame_tracked (h : positive) (cl : Closure)
  (timestamp : num) (s : State) :
  rafCallbacks s = [(h, cl)] ->
  animationFrame h timestamp s
  = step cl timestamp (cancelAnimationFrame h s).
Proof.
  intros Hr. unfold animationFrame. rewrite Hr. cbn.
  now rewrite Pos.eqb_refl.
Qed.

(** C4: a per-frame callback that runs while the state is [running],
    with a positive speed and a non-negative elapsed time, does not
    decrease the progress and keeps it in [[0,1]]; when the progress
    reaches 1 the state is [paused] and no callback is pending, and
    otherwise the loop has rescheduled itself. *)
Theorem frame_advances_progress :
  forall (h : positive) (cl : Closure) (timestamp : num) (s : State),
    animationState s = running ->
    isAnimatingRef s = true ->
    rafCallbacks s = [(h, cl)] ->
    frameRef s = Some h ->
    0 <= progress s <= 1 ->
    0 < cl_speed cl ->
    0 <= deltaSeconds timestamp s ->
    let s' := animationFrame h timestamp s in
    progress s <= progress s'
    /\ 0 <= progress s' <= 1
    /\ (progress s' = 1 ->
        animationState s' = paused /\ isAnimatingRef s' = false
        /\ frameRef s' = None /\ rafCallbacks s' = [])
    /\ (progress s' < 1 ->
        animationState s' = running /\ isAnimatingRef s' = true
        /\ frameRef s' = Some (rafNext s)
        /\ rafCallbacks s' = [(rafNext s, cl)]).
Proof.
  intros h cl timestamp s Hst Han Hr Hf [Hp0 Hp1] Hsp Hdt s'.
  subst s'. rewrite (animationFrame_tracked h cl timestamp s Hr).
  set (s0 := cancelAnimationFrame h s).
  assert (Han0 : isAnimatingRef s0 = true) by exact Han.
  assert (Hr0 : rafCallbacks s0 = []).
  { unfold s0, cancelAnimationFrame. cbn [rafCallbacks set_raf].
    rewrite Hr. apply drop_handle_single. }
  assert (Hf0 : frameRef s0 = Some h) by exact Hf.
  destruct (step_running cl timestamp s0 Han0) as (Hn & _ & Hdone & Hmore).
  change (progress s0) with (progress s) in *.
  change (deltaSeconds timestamp s0) with (deltaSeconds timestamp s) in *.
  set (next := Math_min 1 (progress s + deltaProgress cl (deltaSeconds timestamp s))) in *.
  assert (Hd : 0 <= deltaProgress cl (deltaSeconds timestamp s)).
  { apply deltaProgress_nonneg; [now apply Qclt_le_weak | exact Hdt]. }
  assert (Hle : progress s <= next).
  { apply Math_min_glb; [exact Hp1 | now apply num_le_add_nonneg]. }
  assert (Hn1 : next <= 1) by apply Math_min_le_l.
  rewrite Hn. split; [exact Hle|]. split.
  - split; [|exact Hn1]. now apply Qcle_trans with (progress s).
  - split.
    + intros H1. assert (H : 1 <= next) by (rewrite H1; apply Qcle_refl).
      destruct (Hdone H) as (Ha & Hb & Hc & Hd').
      repeat split; try assumption.
      rewrite Hd', cancel_eq. cbn [rafCallbacks set_frameRef set_raf].
      rewrite Hf0, Hr0. reflexivity.
    + intros H1. destruct (Hmore H1) as (Ha & Hb & Hc & Hd').
      repeat split; try assumption.
      * now rewrite Ha.
      * rewrite Hd', Hr0. reflexivity.
Qed.

Lemma frame_advances_progress_witness :
  animationState midRun = running
  /\ 0 <= deltaSeconds (ofZ 116) midRun
  /\ progress midRun <= progress (animationFrame 3 (ofZ 116) midRun)
  /\ progress (animationFrame 3 (ofZ 116) midRun) < 1
  /\ rafCallbacks (animationFrame 3 (ofZ 116) midRun)
     = [(4%positive, {| cl_speed := ofZ 120; cl_pathLength := ofZ 100 |})].
Proof.
  assert (Hst : animationState midRun = running) by reflexivity.
  assert (Hdt : 0 <= deltaSeconds (ofZ 116) midRun) by num_eval.
  assert (Hlt : progress (animationFrame 3 (ofZ 116) midRun) < 1)
    by num_eval.
  destruct (frame_advances_progress 3
              {| cl_speed := ofZ 120; cl_pathLength := ofZ 100 |}
              (ofZ 116) midRun)
    as (Hle & _ & _ & Hmore).
  - exact Hst.
  - reflexivity.
  - reflexivity.
  - reflexivity.
  - split; num_eval.
  - num_eval.
  - exact Hdt.
  - split; [exact Hst|]. split; [exact Hdt|]. split; [exact Hle|].
    split; [exact Hlt|]. exact (proj2 (proj2 (proj2 (Hmore Hlt)))).
Defined.

(** ** The first frame of a run *)

Lemma pauseAnimation_tracked (s : State) :
  frame_tracked s -> frame_tracked (pauseAnimation s).
Proof.
  intros H. left. split; [|reflexivity].
  cbn. now apply cancel_clears.
Qed.

Lemma resetAnimation_tracked (s : State) :
  frame_tracked s -> frame_tracked (resetAnimation s).
Proof.
  intros H. left. split; [|reflexivity].
  cbn. now apply cancel_clears.
Qed.

(** What an effective [startAnimation] leaves in the state. *)
Lemma startAnimation_effective (s : State) :
  (2 <= List.length (points s))%nat ->
  pathLength s <> 0 ->
  startAnimation s
  = set_frameRef (Some (rafNext s))
      (set_raf
         (rafCallbacks (cancelAnimationFrameIfNeeded s)
            ++ [(rafNext s,
                 {| cl_speed := speed s; cl_pathLength := pathLength s |})])
         (Pos.succ (rafNext s))
         (setAnimationState running (set_isAnimatingRef true s))).
Proof.
  intros Hn Hl. unfold startAnimation.
  destruct (Nat.ltb_spec (List.length (points s)) 2) as [H | _]; [lia|].
  destruct (eqb_spec (pathLength s) 0) as [H | _]; [contradiction|].
  cbn [orb]. rewrite !cancel_eq.
  destruct s as [pts d pr pl st sp fr lt an cbs nx].
  destruct fr; reflexivity.
Qed.

Lemma first_frame_cleared (timestamp : num) (s : State) :
  lastTimestampRef s = None ->
  frame_tracked s ->
  progress s <= 1 ->
  (2 <= List.length (points s))%nat ->
  pathLength s <> 0 ->
  rafCallbacks (startAnimation s)
  = [(rafNext s, {| cl_speed := speed s; cl_pathLength := pathLength s |})]
  /\ animationState (startAnimation s) = running
  /\ deltaSeconds timestamp (startAnimation s) = 0
  /\ progress (animationFrame (rafNext s) timestamp (startAnimation s))
     = progress s.
Proof.
  intros Hlt Htr Hp Hn Hl.
  rewrite (startAnimation_effective s Hn Hl).
  set (cl := {| cl_speed := speed s; cl_pathLength := pathLength s |}).
  cbn [rafCallbacks set_frameRef set_raf animationState setAnimationState].
  rewrite (cancel_clears s Htr). cbn [app].
  split; [reflexivity|]. split; [reflexivity|].
  match goal with |- deltaSeconds _ ?s1 = _ /\ _ => set (s1' := s1) end.
  assert (Hd : deltaSeconds timestamp s1' = 0).
  { apply deltaSeconds_cleared. exact Hlt. }
  split; [exact Hd|].
  rewrite (animationFrame_tracked (rafNext s) cl timestamp s1')
    by (unfold s1'; reflexivity).
  destruct (step_running cl timestamp (cancelAnimationFrame (rafNext s) s1'))
    as (Hn' & _); [reflexivity|].
  rewrite Hn'.
  change (deltaSeconds timestamp (cancelAnimationFrame (rafNext s) s1'))
    with (deltaSeconds timestamp s1').
  rewrite Hd, deltaProgress_zero.
  change (progress (cancelAnimationFrame (rafNext s) s1')) with (progress s).
  rewrite Qcplus_0_r. now apply Math_min_1_id.
Qed.

(** C1, as the code has it: when a run is started while the
    elapsed-time tracking is cleared, which is the case after
    [pauseAnimation], after [resetAnimation] and in every state whose
    [lastTimestampRef] is [null], the first callback of the run computes
    zero elapsed time and leaves the progress as it was. *)
Theorem first_frame_zero_elapsed :
  forall (timestamp : num) (s0 s : State),
    s = pauseAnimation s0 \/ s = resetAnimation s0
    \/ (s = s0 /\ lastTimestampRef s0 = None) ->
    frame_tracked s0 ->
    progress s0 <= 1 ->
    (2 <= List.length (points s0))%nat ->
    pathLength s0 <> 0 ->
    rafCallbacks (startAnimation s)
    = [(rafNext s, {| cl_speed := speed s; cl_pathLength := pathLength s |})]
    /\ animationState (startAnimation s) = running
    /\ deltaSeconds timestamp (startAnimation s) = 0
    /\ progress (animationFrame (rafNext s) timestamp (startAnimation s))
       = progress s.
Proof.
  intros timestamp s0 s Hs Htr Hp Hn Hl.
  destruct Hs as [-> | [-> | [-> Hlt]]].
  - apply first_frame_cleared; try reflexivity.
    + now apply pauseAnimation_tracked.
    + unfold pauseAnimation. rewrite cancel_eq. exact Hp.
    + unfold pauseAnimation. rewrite cancel_eq. exact Hn.
    + unfold pauseAnimation. rewrite cancel_eq. exact Hl.
  - apply first_frame_cleared; try reflexivity.
    + now apply resetAnimation_tracked.
    + cbn. num_eval.
    + unfold resetAnimation. rewrite cancel_eq. exact Hn.
    + unfold resetAnimation. rewrite cancel_eq. exact Hl.
  - now apply first_frame_cleared.
Qed.

Ltac num_neq :=
  let H := fresh in
  intro H; apply eqb_true in H; vm_compute in H; discriminate.

Lemma midRun_tracked : frame_tracked midRun.
Proof.
  right. exists 3%positive, {| cl_speed := ofZ 120; cl_pathLength := ofZ 100 |}.
  repeat split; try reflexivity. num_eval.
Qed.

Lemma first_frame_zero_elapsed_witness :
  deltaSeconds (ofZ 9000) (startAnimation (pauseAnimation midRun)) = 0
  /\ progress (animationFrame 4 (ofZ 9000)
                 (startAnimation (pauseAnimation midRun)))
     = progress midRun.
Proof.
  destruct (first_frame_zero_elapsed (ofZ 9000) midRun (pauseAnimation midRun))
    as (_ & _ & Hd & Hp).
  - left. reflexivity.
  - exact midRun_tracked.
  - num_eval.
  - vm_compute. lia.
  - num_neq.
  - split; [exact Hd | exact Hp].
Defined.

(** C1 as stated fails.  A run that ends because the progress reached 1
    keeps its last timestamp: the first callback of the next run, 4 s
    later, computes 4 s of elapsed time.  A run started while another is
    in progress takes over its timestamp as well: its first callback
    computes the 16 ms since the previous callback and advances the
    progress. *)
Lemma first_frame_elapsed_counterexample :
  animationState finishedRun = paused
  /\ progress finishedRun = 1
  /\ lastTimestampRef finishedRun = Some (ofZ 1000)
  /\ rafCallbacks (startAnimation finishedRun)
     = [(3%positive, {| cl_speed := ofZ 120; cl_pathLength := ofZ 100 |})]
  /\ deltaSeconds (ofZ 5000) (startAnimation finishedRun) = ofZ 4
  /\ deltaSeconds (ofZ 5000) (startAnimation finishedRun) <> 0
  /\ animationState midRun = running
  /\ rafCallbacks (startAnimation midRun)
     = [(4%positive, {| cl_speed := ofZ 120; cl_pathLength := ofZ 100 |})]
  /\ deltaSeconds (ofZ 116) (startAnimation midRun) <> 0
  /\ progress (animationFrame 4 (ofZ 116) (startAnimation midRun))
     <> progress midRun.
Proof.
  split; [vm_compute; reflexivity|].
  split; [num_eval|].
  split; [vm_compute; reflexivity|].
  split; [vm_compute; reflexivity|].
  split; [num_eval|].
  split; [num_neq|].
  split; [vm_compute; reflexivity|].
  split; [vm_compute; reflexivity|].
  split; num_neq.
Qed.

(** ** Path changes *)

Lemma PathCmd_eqb_spec (a b : PathCmd) : reflect (a = b) (PathCmd_eqb a b).
Proof.
  destruct a as [x1 y1 | x1 y1], b as [x2 y2 | x2 y2]; cbn;
    try (constructor; discriminate);
    destruct (eqb_spec x1 x2), (eqb_spec y1 y2); cbn; constructor;
    congruence.
Qed.

Lemma pathD_eqb_spec (a b : list PathCmd) : reflect (a = b) (pathD_eqb a b).
Proof.
  revert b. induction a as [|c a IH]; intros [|d b]; cbn;
    try (constructor; congruence).
  destruct (PathCmd_eqb_spec c d); cbn; [|constructor; congruence].
  destruct (IH b); constructor; congruence.
Qed.

Lemma pathD_length (pts : list ChartPoint) :
  List.length (pathD pts) = List.length pts.
Proof.
  destruct pts as [|p rest]; [reflexivity|].
  cbn. now rewrite length_map.
Qed.

Lemma point_eq (p q : ChartPoint) :
  ChartPoint.id p = ChartPoint.id q ->
  ChartPoint.x p = ChartPoint.x q ->
  ChartPoint.y p = ChartPoint.y q ->
  p = q.
Proof. destruct p, q. cbn. congruence. Qed.

Lemma lines_ids_inj (pts pts' : list ChartPoint) :
  ids pts = ids pts' ->
  map (fun point => L (ChartPoint.x point) (ChartPoint.y point)) pts
  = map (fun point => L (ChartPoint.x point) (ChartPoint.y point)) pts' ->
  pts = pts'.
Proof.
  revert pts'. induction pts as [|p pts IH]; intros [|q pts']; cbn;
    try congruence.
  intros Hi Hl. injection Hi as Hi1 Hi2. injection Hl as Hx Hy Hl.
  f_equal; [now apply point_eq | now apply IH].
Qed.

(** Two point lists with the same ids in the same order and the same
    path description are the same list. *)
Lemma pathD_ids_inj (pts pts' : list ChartPoint) :
  ids pts = ids pts' -> pathD pts = pathD pts' -> pts = pts'.
Proof.
  destruct pts as [|p pts], pts' as [|q pts']; cbn; try congruence.
  intros Hi Hd. injection Hi as Hi1 Hi2. injection Hd as Hx Hy Hl.
  f_equal; [now apply point_eq | now apply lines_ids_inj].
Qed.

Lemma commit_changed (getTotalLength : list PathCmd -> num)
  (prev : list PathCmd) (s : State) :
  prev <> pathD (points s) ->
  commit getTotalLength prev s = resetEffect (measureEffect getTotalLength s).
Proof.
  intros H. unfold commit.
  now destruct (pathD_eqb_spec prev (pathD (points s))).
Qed.

Lemma measureEffect_eq (getTotalLength : list PathCmd -> num) (s : State) :
  measureEffect getTotalLength s
  = setPathLength
      match points s with
      | [] => 0
      | _ :: _ => getTotalLength (pathD (points s))
      end s.
Proof. unfold measureEffect. now destruct (points s). Qed.

Lemma commit_points (getTotalLength : list PathCmd -> num)
  (prev : list PathCmd) (s : State) :
  points (commit getTotalLength prev s) = points s.
Proof.
  unfold commit. destruct (pathD_eqb prev (pathD (points s))); [reflexivity|].
  unfold resetEffect. rewrite cancel_eq, measureEffect_eq. reflexivity.
Qed.

(** The state after the two effects on [pathD]. *)
Lemma effects_reset (getTotalLength : list PathCmd -> num) (s : State) :
  frame_tracked s ->
  let s' := resetEffect (measureEffect getTotalLength s) in
  animationState s' = idle /\ progress s' = 0 /\ rafCallbacks s' = []
  /\ frameRef s' = None /\ lastTimestampRef s' = None
  /\ isAnimatingRef s' = false.
Proof.
  intros H s'. subst s'. unfold resetEffect.
  repeat split; cbn.
  - apply cancel_clears. rewrite measureEffect_eq. exact H.
  - apply frameRef_cancelled.
Qed.

(** A re-render with new points and a different path resets the
    animation. *)
Lemma commit_resets (getTotalLength : list PathCmd -> num)
  (pts : list ChartPoint) (s : State) :
  frame_tracked s ->
  pathD (points s) <> pathD pts ->
  let s' := commit getTotalLength (pathD (points s)) (set_points pts s) in
  animationState s' = idle /\ progress s' = 0 /\ rafCallbacks s' = []
  /\ frameRef s' = None /\ lastTimestampRef s' = None
  /\ isAnimatingRef s' = false.
Proof.
  intros Htr Hd s'. subst s'.
  rewrite commit_changed by exact Hd.
  now apply effects_reset.
Qed.

Lemma ids_movePoint (d : option string) (rx ry : num)
  (pts : list ChartPoint) :
  ids (map (movePoint d rx ry) pts) = ids pts.
Proof.
  unfold ids. rewrite map_map. apply map_ext. intros p.
  unfold movePoint. destruct d as [i|]; [|reflexivity].
  now destruct (String.eqb (ChartPoint.id p) i).
Qed.

(** The per-frame callback touches neither the points, the drag marker,
    the measured length nor the speed. *)
Lemma step_unchanged (cl : Closure) (timestamp : num) (s : State) :
  points (step cl timestamp s) = points s
  /\ draggingId (step cl timestamp s) = draggingId s
  /\ pathLength (step cl timestamp s) = pathLength s
  /\ speed (step cl timestamp s) = speed s.
Proof.
  unfold step. destruct (isAnimatingRef s) eqn:Han; cbn [negb];
    [|repeat split].
  unfold progressUpdater. rewrite cancel_eq.
  destruct (leb 1 _); cbn; [repeat split|].
  rewrite Han. cbn. repeat split.
Qed.

Lemma animationFrame_points (h : positive) (timestamp : num) (s : State) :
  points (animationFrame h timestamp s) = points s.
Proof.
  unfold animationFrame. destruct (find_handle h (rafCallbacks s));
    [|reflexivity].
  now rewrite (proj1 (step_unchanged _ _ _)).
Qed.

(** C3: whenever an event changes the point list (a click that adds a
    point, a drag that moves one), the resulting state is idle with
    progress 0 and no pending callback.  This holds from every state
    whose pending callback is the tracked one, in particular from a
    running or a paused one. *)
Theorem point_mutation_resets_animation :
  forall (getTotalLength : list PathCmd -> num) (ev : Event) (s : State),
    frame_tracked s ->
    points (handle getTotalLength ev s) <> points s ->
    animationState (handle getTotalLength ev s) = idle
    /\ progress (handle getTotalLength ev s) = 0
    /\ rafCallbacks (handle getTotalLength ev s) = []
    /\ frameRef (handle getTotalLength ev s) = None
    /\ lastTimestampRef (handle getTotalLength ev s) = None
    /\ isAnimatingRef (handle getTotalLength ev s) = false.
Proof.
  intros gtl ev s Htr Hch.
  destruct ev as [rect uuid event | i | rect event | | | | | v | h timestamp];
    cbn [handle] in *.
  - (* a click *)
    unfold handlePointerDown in *.
    destruct (findNearestPoint rect event (points s));
      [exfalso; now apply Hch|].
    destruct (getRelativeCoordinates rect event) as [[rx ry]|];
      [|exfalso; now apply Hch].
    apply commit_resets; [exact Htr|].
    intros Heq. apply (f_equal (@List.length _)) in Heq.
    rewrite !pathD_length, length_app in Heq. cbn in Heq. lia.
  - exfalso. now apply Hch.
  - (* a drag *)
    unfold handlePointerMove in *.
    destruct (falsy (draggingId s)); [exfalso; now apply Hch|].
    destruct (getRelativeCoordinates rect event) as [[rx ry]|];
      [|exfalso; now apply Hch].
    rewrite commit_points in Hch. cbn [points set_points] in Hch.
    apply commit_resets; [exact Htr|].
    intros Heq. apply Hch. symmetry.
    apply pathD_ids_inj; [|exact Heq].
    symmetry. apply ids_movePoint.
  - exfalso. now apply Hch.
  - exfalso. apply Hch. unfold startAnimation.
    destruct (_ || _); [reflexivity|].
    rewrite cancel_eq. reflexivity.
  - exfalso. apply Hch. unfold pauseAnimation. now rewrite cancel_eq.
  - exfalso. apply Hch. unfold resetAnimation. now rewrite cancel_eq.
  - exfalso. now apply Hch.
  - exfalso. apply Hch. apply animationFrame_points.
Qed.

Lemma point_mutation_resets_animation_witness :
  (animationState midRun = running
   /\ animationState (handle measure100 thirdClick midRun) = idle
   /\ progress (handle measure100 thirdClick midRun) = 0
   /\ rafCallbacks (handle measure100 thirdClick midRun) = [])
  /\ (animationState pausedDrag = paused
      /\ animationState
           (handle measure100
              (PointerMove (Some canvas) (pointerAt 40 20)) pausedDrag) = idle
      /\ progress
           (handle measure100
              (PointerMove (Some canvas) (pointerAt 40 20)) pausedDrag) = 0).
Proof.
  split.
  - destruct (point_mutation_resets_animation measure100 thirdClick midRun)
      as (Ha & Hp & Hr & _).
    + exact midRun_tracked.
    + intros H. apply (f_equal (@List.length _)) in H.
      vm_compute in H. discriminate.
    + split; [reflexivity|]. split; [exact Ha|]. split; [exact Hp | exact Hr].
  - destruct (point_mutation_resets_animation measure100
                (PointerMove (Some canvas) (pointerAt 40 20)) pausedDrag)
      as (Ha & Hp & _).
    + left. split; reflexivity.
    + intros H.
      apply (f_equal (fun l => option_map ChartPoint.x (hd_error l))) in H.
      apply (f_equal (option_map (eqb (ofZ 10)))) in H.
      vm_compute in H. discriminate.
    + split; [reflexivity|]. split; [exact Ha | exact Hp].
Defined.

(** ** Hit-testing *)

Lemma nearestLoop_spec (rect : DOMRect) (event : PointerEvent)
  (pts seen : list ChartPoint) (acc : option ChartPoint * Dist) :
  nearest_of rect event seen acc ->
  nearest_of rect event (seen ++ pts) (nearestLoop rect event pts acc).
Proof.
  revert seen acc. induction pts as [|point rest IH]; intros seen acc Hacc.
  - rewrite app_nil_r. exact Hacc.
  - cbn [nearestLoop].
    replace (seen ++ point :: rest) with ((seen ++ [point]) ++ rest)
      by (rewrite <- app_assoc; reflexivity).
    destruct Hacc as [[-> ->] | (p & -> & Hin & Hmin)]; cbn [snd dist_ltb].
    + apply IH. right. exists point. split; [reflexivity|].
      split; [now left|].
      intros q [<- | []]. apply Qcle_refl.
    + unfold Math_sqrt. cbn [dist_ltb].
      destruct (ltb (distance2 rect event point) (distance2 rect event p))
        eqn:E; apply IH; right.
      * apply ltb_true in E. exists point. split; [reflexivity|].
        split; [apply in_or_app; right; now left|].
        intros q Hq. apply in_app_or in Hq. destruct Hq as [Hq | [<- | []]].
        -- apply Qcle_trans with (distance2 rect event p);
             [now apply Qclt_le_weak | now apply Hmin].
        -- apply Qcle_refl.
      * apply ltb_false in E. exists p. split; [reflexivity|].
        split; [apply in_or_app; now left|].
        intros q Hq. apply in_app_or in Hq. destruct Hq as [Hq | [<- | []]].
        -- now apply Hmin.
        -- exact E.
Qed.

(** [findNearestPoint] returns a point exactly when some point is at
    less than 18 px, and then a nearest one. *)
Lemma findNearestPoint_spec (rect : DOMRect) (event : PointerEvent)
  (pts : list ChartPoint) :
  match findNearestPoint (Some rect) event pts with
  | Some p =>
      In p pts /\ distance2 rect event p < radius2
      /\ forall q, In q pts ->
                   distance2 rect event p <= distance2 rect event q
  | None => forall q, In q pts -> radius2 <= distance2 rect event q
  end.
Proof.
  unfold findNearestPoint.
  pose proof (nearestLoop_spec rect event pts [] (None, Infinity)
                (or_introl (conj eq_refl eq_refl))) as H.
  cbn [app] in H.
  destruct H as [[-> ->] | (p & -> & Hin & Hmin)].
  - cbn. intros q [].
  - cbn [dist_ltb_num]. fold radius2.
    destruct (ltb (distance2 rect event p) radius2) eqn:E.
    + apply ltb_true in E. now repeat split.
    + apply ltb_false in E. intros q Hq.
      apply Qcle_trans with (distance2 rect event p); [exact E|].
      now apply Hmin.
Qed.

(** ** Hit-testing in binary64

    The order of doubles, through its specification on [spec_float]:
    [<] is irreflexive and transitive, and a number that is not [NaN]
    lies above the smaller or below the larger of two ordered doubles. *)

Ltac sf_split :=
  repeat match goal with
  | H : context [Z.compare ?a ?b] |- _ => destruct (Z.compare_spec a b)
  | |- context [Z.compare ?a ?b] => destruct (Z.compare_spec a b)
  | H : context [Pos.compare ?a ?b] |- _ => destruct (Pos.compare_spec a b)
  | |- context [Pos.compare ?a ?b] => destruct (Pos.compare_spec a b)
  end.

Ltac sf_solve :=
  unfold SpecFloat.SFltb, SpecFloat.SFcompare in *;
  repeat match goal with
  | f : SpecFloat.spec_float |- _ => destruct f
  end;
  repeat match goal with
  | s : bool |- _ => destruct s
  end;
  change (Pos.compare_cont Eq) with Pos.compare in *;
  cbn [CompOpp] in *;
  try discriminate; try congruence; auto;
  sf_split; subst; cbn [CompOpp] in *;
  try discriminate; try congruence; try lia; auto.

Lemma SFltb_irrefl (a : SpecFloat.spec_float) : SpecFloat.SFltb a a = false.
Proof. sf_solve. Qed.

Lemma SFltb_trans (a b c : SpecFloat.spec_float) :
  SpecFloat.SFltb a b = true -> SpecFloat.SFltb b c = true ->
  SpecFloat.SFltb a c = true.
Proof. intros H1 H2. sf_solve. Qed.



Lemma below_irrefl (a : PrimFloat.float) : PrimFloat.ltb a a = false.
Proof. rewrite FloatAxioms.ltb_spec. apply SFltb_irrefl. Qed.

Lemma below_trans (a b c : PrimFloat.float) :
  Double.below a b -> Double.below b c -> Double.below a c.
Proof.
  unfold Double.below. rewrite !FloatAxioms.ltb_spec. apply SFltb_trans.
Qed.



Lemma not_below_after (a b c : PrimFloat.float) :
  PrimFloat.ltb a b = false -> Double.below c b ->
  PrimFloat.ltb a c = false.
Proof.
  intros H1 H2. destruct (PrimFloat.ltb a c) eqn:E; [|reflexivity].
  rewrite (below_trans a c b E H2) in H1. discriminate.
Qed.








(** ** Adding points *)






Lemma canvas_mounted : mounted (Some canvas).
Proof. split; num_eval. Qed.


(** ** Dragging *)

Lemma falsy_Some (d : string) : d <> EmptyString -> falsy (Some d) = false.
Proof.
  intros H. cbn. destruct (String.eqb_spec d EmptyString); congruence.
Qed.

(** C8: while the point id [d] is marked as dragged, a pointer-move on a
    canvas of positive size keeps the length of the list, the ids and
    their order, and the marker; at each position, a point whose id is
    not [d] is unchanged, and a point whose id is [d] keeps its id and
    takes the pointer position as percentages in [[0,100]]. *)
Theorem pointerMove_moves_only_dragged :
  forall (getTotalLength : list PathCmd -> num) (rect : DOMRect)
         (event : PointerEvent) (s : State) (d : string),
    draggingId s = Some d ->
    d <> EmptyString ->
    mounted (Some rect) ->
    let s' := handlePointerMove getTotalLength (Some rect) event s in
    exists rx ry,
      getRelativeCoordinates (Some rect) event = Some (rx, ry)
      /\ in_percent rx /\ in_percent ry
      /\ List.length (points s') = List.length (points s)
      /\ ids (points s') = ids (points s)
      /\ draggingId s' = Some d
      /\ forall i p,
           nth_error (points s) i = Some p ->
           (ChartPoint.id p <> d -> nth_error (points s') i = Some p)
           /\ (ChartPoint.id p = d ->
               nth_error (points s') i = Some (ChartPoint.mk d rx ry)).
Proof.
  intros gtl rect event s d Hd Hne _ s'. subst s'.
  unfold handlePointerMove. rewrite Hd, (falsy_Some d Hne).
  cbn [getRelativeCoordinates].
  eexists _, _. split; [reflexivity|].
  split; [apply clamp100_in_percent|].
  split; [apply clamp100_in_percent|].
  rewrite commit_points. cbn [points set_points].
  split; [apply length_map|].
  split; [apply ids_movePoint|].
  split.
  - unfold commit. destruct (pathD_eqb _ _); [exact Hd|].
    unfold resetEffect. rewrite cancel_eq, measureEffect_eq. exact Hd.
  - intros i p Hp. rewrite nth_error_map, Hp. cbn [option_map movePoint].
    destruct (String.eqb_spec (ChartPoint.id p) d) as [He | He]; split;
      intros H; try contradiction; try reflexivity.
    now rewrite He.
Qed.

Lemma pointerMove_moves_only_dragged_witness :
  map (fun p => (ChartPoint.id p,
                 eqb (ChartPoint.x p) (ofZ 20), eqb (ChartPoint.y p) (ofZ 20)))
    (points (handlePointerMove measure100 (Some canvas) (pointerAt 40 20)
               pausedDrag))
  = [("a", true, true); ("b", false, false)]%string
  /\ nth_error (points (handlePointerMove measure100 (Some canvas)
                          (pointerAt 40 20) pausedDrag)) 1
     = nth_error (points pausedDrag) 1.
Proof.
  destruct (pointerMove_moves_only_dragged measure100 canvas
              (pointerAt 40 20) pausedDrag "a"%string)
    as (rx & ry & _ & _ & _ & _ & _ & _ & Hnth).
  - reflexivity.
  - discriminate.
  - exact canvas_mounted.
  - split; [vm_compute; reflexivity|].
    assert (Hb : option_map ChartPoint.id (nth_error (points pausedDrag) 1)
                 = Some "b"%string) by (vm_compute; reflexivity).
    destruct (nth_error (points pausedDrag) 1) as [p|] eqn:E;
      [|discriminate].
    cbn [option_map] in Hb. injection Hb as Hb.
    apply (proj1 (Hnth 1%nat p E)).
    intros Hid. rewrite Hid in Hb. discriminate.
Defined.

(** Without a dragged point a pointer-move does nothing, and ending a
    drag only clears the marker. *)
Lemma pointerMove_without_drag (getTotalLength : list PathCmd -> num)
  (rect : option DOMRect) (event : PointerEvent) (s : State) :
  draggingId s = None ->
  handlePointerMove getTotalLength rect event s = s.
Proof. intros H. unfold handlePointerMove. now rewrite H. Qed.

Lemma stopDragging_clears_marker (s : State) :
  stopDragging s = setDraggingId None s
  /\ draggingId (stopDragging s) = None
  /\ points (stopDragging s) = points s
  /\ progress (stopDragging s) = progress s
  /\ animationState (stopDragging s) = animationState s
  /\ rafCallbacks (stopDragging s) = rafCallbacks s.
Proof. repeat split. Qed.

(** ** The invariant of the reachable states *)

Ltac fields :=
  cbn [points draggingId progress pathLength animationState speed frameRef
       lastTimestampRef isAnimatingRef rafCallbacks rafNext
       set_points setDraggingId set_progress setPathLength setAnimationState
       setSpeed set_frameRef set_lastTimestampRef set_isAnimatingRef set_raf
       cancelAnimationFrame] in *.

Lemma Inv_initialState : Inv initialState.
Proof.
  constructor; fields.
  - split; discriminate.
  - left. now split.
  - split; num_eval.
  - split; num_eval.
  - constructor.
  - split; [constructor | intros []].
  - discriminate.
  - discriminate.
Qed.

Lemma Inv_setDraggingId (d : option string) (s : State) :
  Inv s ->
  (forall i, d = Some i -> In i (ids (points s))) ->
  Inv (setDraggingId d s).
Proof.
  intros [H1 H2 H3 H4 H5 H6 H7 H8] Hd.
  constructor; fields; assumption.
Qed.

Lemma Inv_setSpeed (v : num) (s : State) :
  Inv s -> ofZ 20 <= v /\ v <= ofZ 300 -> Inv (setSpeed v s).
Proof.
  intros [H1 H2 H3 H4 H5 H6 H7 H8] Hv.
  constructor; fields; assumption.
Qed.

(** A state that was stopped through [cancelAnimationFrameIfNeeded],
    with the tracking cleared. *)
Lemma Inv_stopped (st : AnimationState) (p : num) (s : State) :
  Inv s ->
  st <> running ->
  0 <= p /\ p <= 1 ->
  Inv (set_isAnimatingRef false
         (set_lastTimestampRef None
            (setAnimationState st
               (set_progress p (cancelAnimationFrameIfNeeded s))))).
Proof.
  intros [H1 H2 H3 H4 H5 H6 H7 H8] Hst Hp.
  pose proof (cancel_clears s H2) as Hc.
  rewrite cancel_eq in *. fields.
  constructor; fields; try assumption.
  - split; [discriminate | intros E; contradiction].
  - left. now split.
  - discriminate.
Qed.

Lemma Inv_pauseAnimation (s : State) : Inv s -> Inv (pauseAnimation s).
Proof.
  intros H.
  pose proof (Inv_stopped paused (progress s) s H) as K.
  unfold pauseAnimation. rewrite cancel_eq in *. fields.
  apply K; [discriminate | apply (inv_progress s H)].
Qed.

Lemma Inv_resetAnimation (s : State) : Inv s -> Inv (resetAnimation s).
Proof.
  intros H.
  pose proof (Inv_stopped idle 0 s H) as K.
  unfold resetAnimation. rewrite cancel_eq in *. fields.
  apply K; [discriminate | split; num_eval].
Qed.

Lemma Inv_startAnimation (s : State) : Inv s -> Inv (startAnimation s).
Proof.
  intros H. unfold startAnimation.
  destruct (_ || _); [exact H|].
  destruct H as [H1 H2 H3 H4 H5 H6 H7 H8].
  pose proof (cancel_clears s H2) as Hc.
  rewrite cancel_eq in *. unfold requestAnimationFrame. fields.
  constructor; fields; try assumption.
  - split; reflexivity.
  - right. rewrite Hc. eexists _, _. repeat split.
    cbn [cl_speed]. apply Qcle_trans with (ofZ 20); [num_eval | apply H4].
  - discriminate.
Qed.

(** A re-render with a new point list that keeps the point invariants. *)
Lemma Inv_commit (getTotalLength : list PathCmd -> num)
  (pts : list ChartPoint) (s : State) :
  Inv s ->
  Forall point_in_canvas pts ->
  NoDup (ids pts) /\ ~ In EmptyString (ids pts) ->
  (forall d, draggingId s = Some d -> In d (ids pts)) ->
  Inv (commit getTotalLength (pathD (points s)) (set_points pts s)).
Proof.
  intros [H1 H2 H3 H4 H5 H6 H7 H8] Hp Hi Hd.
  unfold commit. fields.
  destruct (pathD_eqb (pathD (points s)) (pathD pts)).
  - constructor; fields; assumption.
  - pose proof (cancel_clears s H2) as Hc.
    unfold resetEffect. rewrite measureEffect_eq, cancel_eq in *. fields.
    constructor; fields; try assumption.
    + split; discriminate.
    + left. now split.
    + split; num_eval.
    + discriminate.
Qed.

Lemma Inv_handlePointerDown (getTotalLength : list PathCmd -> num)
  (rect : option DOMRect) (uuid : string) (event : PointerEvent) (s : State) :
  Inv s ->
  admissible (PointerDown rect uuid event) s ->
  Inv (handlePointerDown getTotalLength rect uuid event s).
Proof.
  intros H (Hm & Hne & Hfresh).
  destruct rect as [rect|]; [|contradiction].
  unfold handlePointerDown.
  pose proof (findNearestPoint_spec rect event (points s)) as Hn.
  destruct (findNearestPoint (Some rect) event (points s)) as [p|].
  - apply Inv_setDraggingId; [exact H|].
    intros i [= <-]. apply in_map. apply Hn.
  - cbn [getRelativeCoordinates].
    apply Inv_commit; [exact H | | |].
    + apply Forall_app. split; [apply (inv_points s H)|].
      constructor; [|constructor].
      split; apply clamp100_in_percent.
    + unfold ids. rewrite map_app. cbn [map ChartPoint.id].
      destruct (inv_ids s H) as [Hnd Hem]. split.
      * apply NoDup_app; [exact Hnd | repeat constructor; intros [] |].
        intros a Ha [<- | []]. now apply Hfresh.
      * intros Hin. apply in_app_or in Hin.
        destruct Hin as [Hin | [Hin | []]]; [now apply Hem | now apply Hne].
    + intros d Hd. unfold ids. rewrite map_app. apply in_or_app. left.
      now apply (inv_drag s H).
Qed.

Lemma Inv_handlePointerMove (getTotalLength : list PathCmd -> num)
  (rect : option DOMRect) (event : PointerEvent) (s : State) :
  Inv s ->
  Inv (handlePointerMove getTotalLength rect event s).
Proof.
  intros H. unfold handlePointerMove.
  destruct (falsy (draggingId s)); [exact H|].
  destruct (getRelativeCoordinates rect event) as [[rx ry]|] eqn:E;
    [|exact H].
  apply Inv_commit; [exact H | | |].
  - apply Forall_forall. intros p Hp. apply in_map_iff in Hp.
    destruct Hp as (q & <- & Hq).
    pose proof (proj1 (Forall_forall _ _) (inv_points s H) q Hq) as Hc.
    unfold movePoint. destruct (draggingId s) as [i|]; [|exact Hc].
    destruct (String.eqb (ChartPoint.id q) i); [|exact Hc].
    destruct rect as [rect|]; [|discriminate].
    cbn [getRelativeCoordinates] in E. injection E as <- <-.
    split; apply clamp100_in_percent.
  - rewrite ids_movePoint. apply (inv_ids s H).
  - intros d Hd. rewrite ids_movePoint. now apply (inv_drag s H).
Qed.

Lemma find_handle_single (h h' : positive) (cl cl' : Closure) :
  find_handle h [(h', cl')] = Some cl -> h' = h /\ cl' = cl.
Proof.
  cbn. destruct (Pos.eqb_spec h' h); [|discriminate].
  intros [= <-]. now split.
Qed.

Lemma Inv_animationFrame (h : positive) (timestamp : num) (s : State) :
  Inv s ->
  admissible (AnimationFrame h timestamp) s ->
  Inv (animationFrame h timestamp s).
Proof.
  intros H Hadm. unfold animationFrame.
  destruct (find_handle h (rafCallbacks s)) as [cl|] eqn:E; [|exact H].
  destruct H as [H1 H2 H3 H4 H5 H6 H7 H8].
  destruct H2 as [[Hr _] | (h' & cl' & Hr & Hf & Han & Hsp)];
    [rewrite Hr in E; discriminate|].
  rewrite Hr in E. apply find_handle_single in E. destruct E as [-> ->].
  set (s0 := cancelAnimationFrame h s).
  assert (Hr0 : rafCallbacks s0 = []).
  { unfold s0. fields. rewrite Hr. apply drop_handle_single. }
  destruct (step_running cl timestamp s0 Han) as (Hn & Hts & Hdone & Hmore).
  destruct (step_unchanged cl timestamp s0) as (Hpt & Hdr & _ & Hspd).
  change (progress s0) with (progress s) in *.
  change (deltaSeconds timestamp s0) with (deltaSeconds timestamp s) in *.
  set (next := Math_min 1 (progress s
                           + deltaProgress cl (deltaSeconds timestamp s))) in *.
  assert (Hd : 0 <= deltaProgress cl (deltaSeconds timestamp s)).
  { apply deltaProgress_nonneg; [exact Hsp|].
    now apply deltaSeconds_nonneg. }
  assert (Hle : progress s <= next).
  { apply Math_min_glb; [apply H3 | now apply num_le_add_nonneg]. }
  assert (Hn1 : next <= 1) by apply Math_min_le_l.
  assert (Hprog : 0 <= next /\ next <= 1).
  { split; [|exact Hn1]. apply Qcle_trans with (progress s);
      [apply H3 | exact Hle]. }
  destruct (leb_spec 1 next) as [Hge | Hlt].
  - destruct (Hdone Hge) as (Ha & Hb & Hc & Hd').
    constructor.
    + rewrite Ha, Hb. split; discriminate.
    + left. split; [|exact Hb].
      rewrite Hd', cancel_eq. fields. fold s0.
      change (frameRef s0) with (frameRef s). rewrite Hf, Hr0. reflexivity.
    + now rewrite Hn.
    + now rewrite Hspd.
    + now rewrite Hpt.
    + now rewrite Hpt.
    + rewrite Hpt, Hdr. exact H7.
    + intros l _ _. rewrite Hn. now apply Qcle_antisym.
  - apply Qcnot_le_lt in Hlt.
    destruct (Hmore Hlt) as (Ha & Hb & Hc & Hd').
    constructor.
    + rewrite Ha, Hb. split; [intros _|reflexivity]. now apply H1.
    + right. exists (rafNext s0), cl. rewrite Hd', Hr0. now repeat split.
    + now rewrite Hn.
    + now rewrite Hspd.
    + now rewrite Hpt.
    + now rewrite Hpt.
    + rewrite Hpt, Hdr. exact H7.
    + intros l _ Hf'. rewrite Hb in Hf'. discriminate.
Qed.

Lemma Inv_handle (getTotalLength : list PathCmd -> num) (ev : Event)
  (s : State) :
  Inv s -> admissible ev s -> Inv (handle getTotalLength ev s).
Proof.
  intros H Hadm.
  destruct ev as [rect uuid event | i | rect event | | | | | v | h timestamp];
    cbn [handle].
  - now apply Inv_handlePointerDown.
  - apply Inv_setDraggingId; [exact H|]. now intros j [= <-].
  - now apply Inv_handlePointerMove.
  - apply Inv_setDraggingId; [exact H|]. discriminate.
  - now apply Inv_startAnimation.
  - now apply Inv_pauseAnimation.
  - now apply Inv_resetAnimation.
  - now apply Inv_setSpeed.
  - now apply Inv_animationFrame.
Qed.

(** Every reachable state satisfies the invariant: the state is
    [running] exactly while the loop is on, the pending callbacks are
    the one held by [frameRef] or none, the progress is in [[0,1]], the
    speed in [[20,300]], every point in [[0,100]] on both axes with a
    unique non-empty id, and a dragged id is the id of a point. *)
Theorem reachable_Inv :
  forall (getTotalLength : list PathCmd -> num) (s : State),
    reachable getTotalLength s -> Inv s.
Proof.
  intros gtl s H. induction H as [|s ev _ IH Hadm].
  - exact Inv_initialState.
  - now apply Inv_handle.
Qed.

(** ** The speed setting *)



(** ** The updater run at the call or at the next render *)

(** When the callback table is empty at the call, as it is when the
    browser runs the tracked callback, running the updater after the
    reschedule test gives the same component state and the same pending
    callbacks as running it at the call; only the handle counter of the
    browser can differ. *)
Lemma stepDeferred_agrees (cl : Closure) (timestamp : num) (s : State) :
  isAnimatingRef s = true ->
  rafCallbacks s = [] ->
  points (stepDeferred cl timestamp s) = points (step cl timestamp s)
  /\ draggingId (stepDeferred cl timestamp s)
     = draggingId (step cl timestamp s)
  /\ progress (stepDeferred cl timestamp s) = progress (step cl timestamp s)
  /\ pathLength (stepDeferred cl timestamp s)
     = pathLength (step cl timestamp s)
  /\ animationState (stepDeferred cl timestamp s)
     = animationState (step cl timestamp s)
  /\ speed (stepDeferred cl timestamp s) = speed (step cl timestamp s)
  /\ frameRef (stepDeferred cl timestamp s) = frameRef (step cl timestamp s)
  /\ lastTimestampRef (stepDeferred cl timestamp s)
     = lastTimestampRef (step cl timestamp s)
  /\ isAnimatingRef (stepDeferred cl timestamp s)
     = isAnimatingRef (step cl timestamp s)
  /\ rafCallbacks (stepDeferred cl timestamp s)
     = rafCallbacks (step cl timestamp s).
Proof.
  intros Han Hr. unfold step, stepDeferred. rewrite Han. cbn [negb].
  fields. rewrite Han.
  unfold progressUpdater, requestAnimationFrame. rewrite !cancel_eq. fields.
  rewrite Hr. cbn [app].
  destruct (leb 1 _); fields.
  - rewrite drop_handle_single.
    destruct (frameRef s); repeat split.
  - rewrite Han. fields. rewrite Hr. repeat split. now rewrite Han.
Qed.

(** ** Pausing through the enabled controls *)










(** * Further properties *)

(** ** Several frames of one run *)

Lemma Math_min_1_ge (x : num) : 1 <= x -> Math_min 1 x = 1.
Proof. intros H. unfold Math_min. apply leb_true in H. now rewrite H. Qed.

Lemma frames_stopped (ts : list num) (s : State) :
  frameRef s = None -> frames ts s = s.
Proof.
  intros H. induction ts as [|t rest IH]; [reflexivity|].
  unfold frames in *. cbn [fold_left]. unfold nextFrame at 2.
  rewrite H. exact IH.
Qed.

(** One frame on a state whose single pending callback is the tracked
    one. *)
Lemma nextFrame_tracked (cl : Closure) (h : positive) (timestamp : num)
  (s : State) :
  isAnimatingRef s = true ->
  rafCallbacks s = [(h, cl)] ->
  frameRef s = Some h ->
  let next :=
    Math_min 1 (progress s + deltaProgress cl (deltaSeconds timestamp s)) in
  progress (nextFrame timestamp s) = next
  /\ lastTimestampRef (nextFrame timestamp s) = Some timestamp
  /\ (1 <= next ->
      animationState (nextFrame timestamp s) = paused
      /\ isAnimatingRef (nextFrame timestamp s) = false
      /\ frameRef (nextFrame timestamp s) = None
      /\ rafCallbacks (nextFrame timestamp s) = [])
  /\ (next < 1 ->
      animationState (nextFrame timestamp s) = animationState s
      /\ isAnimatingRef (nextFrame timestamp s) = true
      /\ frameRef (nextFrame timestamp s) = Some (rafNext s)
      /\ rafCallbacks (nextFrame timestamp s) = [(rafNext s, cl)]).
Proof.
  intros Han Hr Hf next. unfold nextFrame. rewrite Hf.
  rewrite (animationFrame_tracked h cl timestamp s Hr).
  set (s0 := cancelAnimationFrame h s).
  assert (Hr0 : rafCallbacks s0 = []).
  { unfold s0, cancelAnimationFrame. cbn [rafCallbacks set_raf].
    rewrite Hr. apply drop_handle_single. }
  destruct (step_running cl timestamp s0 Han) as (Hn & Hts & Hdone & Hmore).
  split; [exact Hn|]. split; [exact Hts|]. split.
  - intros H. destruct (Hdone H) as (Ha & Hb & Hc & Hd).
    repeat split; try assumption.
    rewrite Hd, cancel_eq. cbn [rafCallbacks set_frameRef set_raf].
    change (frameRef s0) with (frameRef s). now rewrite Hf, Hr0.
  - intros H. destruct (Hmore H) as (Ha & Hb & Hc & Hd).
    repeat split; try assumption. now rewrite Hd, Hr0.
Qed.

(** ** The speed of a run in progress *)

Lemma step_setSpeed (cl : Closure) (timestamp v : num) (s : State) :
  step cl timestamp (setSpeed v s) = setSpeed v (step cl timestamp s).
Proof.
  unfold step, progressUpdater, requestAnimationFrame.
  rewrite !cancel_eq.
  destruct s as [pts d pr pl st sp fr lt an cbs nx]. fields.
  destruct an; cbn [negb]; [|reflexivity].
  unfold deltaSeconds. fields.
  destruct (leb 1 _); fields; reflexivity.
Qed.

Lemma animationFrame_setSpeed (h : positive) (timestamp v : num)
  (s : State) :
  animationFrame h timestamp (setSpeed v s)
  = setSpeed v (animationFrame h timestamp s).
Proof.
  unfold animationFrame. cbn [rafCallbacks setSpeed].
  destruct (find_handle h (rafCallbacks s)) as [cl|]; [|reflexivity].
  rewrite <- step_setSpeed. reflexivity.
Qed.

(** X3: a change of the speed setting commutes with every callback of
    the loop: the frames of a run in progress advance the progress as if
    the speed had not been changed, because [step] uses the speed of the
    render in which [startAnimation] was called. *)
Theorem speed_change_does_not_reach_running_loop :
  forall (calls : list (positive * num)) (v : num) (s : State),
    anyFrames calls (setSpeed v s) = setSpeed v (anyFrames calls s)
    /\ progress (anyFrames calls (setSpeed v s))
       = progress (anyFrames calls s)
    /\ animationState (anyFrames calls (setSpeed v s))
       = animationState (anyFrames calls s).
Proof.
  intros calls v s.
  assert (H : anyFrames calls (setSpeed v s) = setSpeed v (anyFrames calls s)).
  { revert s. induction calls as [|[h t] rest IH]; intros s; [reflexivity|].
    unfold anyFrames in *. cbn [fold_left fst snd].
    rewrite animationFrame_setSpeed. apply IH. }
  rewrite H. repeat split.
Qed.

(** ** A stopped animation *)

Lemma animationFrame_no_callback (h : positive) (timestamp : num)
  (s : State) :
  rafCallbacks s = [] -> animationFrame h timestamp s = s.
Proof. intros H. unfold animationFrame. now rewrite H. Qed.

Lemma anyFrames_no_callback (calls : list (positive * num)) (s : State) :
  rafCallbacks s = [] -> anyFrames calls s = s.
Proof.
  intros H. induction calls as [|[h t] rest IH]; [reflexivity|].
  unfold anyFrames in *. cbn [fold_left fst snd].
  now rewrite (animationFrame_no_callback h t s H).
Qed.

(** X4: once paused or reset, the animation is frozen: whatever
    callbacks the browser still delivers, with whatever handles and
    timestamps, the state does not change; and pausing twice is pausing
    once. *)
Theorem stopped_animation_is_frozen :
  forall (calls : list (positive * num)) (s : State),
    frame_tracked s ->
    anyFrames calls (pauseAnimation s) = pauseAnimation s
    /\ anyFrames calls (resetAnimation s) = resetAnimation s
    /\ pauseAnimation (pauseAnimation s) = pauseAnimation s
    /\ resetAnimation (pauseAnimation s) = resetAnimation s
    /\ progress (pauseAnimation s) = progress s.
Proof.
  intros calls s Htr.
  split; [|split; [|split; [|split]]].
  - apply anyFrames_no_callback.
    destruct (pauseAnimation_tracked s Htr) as [[H _] | (h & cl & _ & _ & H & _)];
      [exact H | discriminate].
  - apply anyFrames_no_callback.
    destruct (resetAnimation_tracked s Htr) as [[H _] | (h & cl & _ & _ & H & _)];
      [exact H | discriminate].
  - unfold pauseAnimation. rewrite !cancel_eq.
    destruct s as [pts d pr pl st sp fr lt an cbs nx].
    destruct fr; reflexivity.
  - unfold pauseAnimation, resetAnimation. rewrite !cancel_eq.
    destruct s as [pts d pr pl st sp fr lt an cbs nx].
    destruct fr; reflexivity.
  - unfold pauseAnimation. now rewrite cancel_eq.
Qed.

Lemma stopped_animation_is_frozen_witness :
  anyFrames [(3%positive, ofZ 116); (4%positive, ofZ 132)]
    (pauseAnimation midRun)
  = pauseAnimation midRun.
Proof.
  exact (proj1 (stopped_animation_is_frozen
                  [(3%positive, ofZ 116); (4%positive, ofZ 132)]
                  midRun midRun_tracked)).
Defined.

(** X5: when the path has been traced to the end (progress 1), Start
    does not replay it.  If the speed is not negative and the first
    frame of the new run computes an elapsed time that is not negative,
    that frame finds the progress at 1 and pauses again, with progress 1
    and no pending callback, and the frames after it change nothing. *)
Theorem start_after_completion_pauses_again :
  forall (s : State) (t0 : num) (rest : list num),
    frame_tracked s ->
    progress s = 1 ->
    (2 <= List.length (points s))%nat ->
    pathLength s <> 0 ->
    0 <= speed s ->
    0 <= deltaSeconds t0 s ->
    animationState (startAnimation s) = running
    /\ progress (frames (t0 :: rest) (startAnimation s)) = 1
    /\ animationState (frames (t0 :: rest) (startAnimation s)) = paused
    /\ rafCallbacks (frames (t0 :: rest) (startAnimation s)) = [].
Proof.
  intros s t0 rest Htr Hp Hn Hl Hsp Hdt.
  set (cl := {| cl_speed := speed s; cl_pathLength := pathLength s |}).
  set (s1 := startAnimation s).
  assert (Hs1 : s1 = startAnimation s) by reflexivity.
  rewrite (startAnimation_effective s Hn Hl), cancel_eq in Hs1.
  pose proof (cancel_clears s Htr) as Hc. rewrite cancel_eq in Hc.
  cbn [rafCallbacks set_frameRef set_raf] in Hc.
  assert (Hr : rafCallbacks s1 = [(rafNext s, cl)]).
  { rewrite Hs1. cbn [rafCallbacks set_frameRef set_raf setAnimationState
                      set_isAnimatingRef]. now rewrite Hc. }
  assert (Han : isAnimatingRef s1 = true) by now rewrite Hs1.
  assert (Hf : frameRef s1 = Some (rafNext s)) by now rewrite Hs1.
  assert (Hst : animationState s1 = running) by now rewrite Hs1.
  assert (Hp1 : progress s1 = 1) by now rewrite Hs1.
  assert (Hd1 : deltaSeconds t0 s1 = deltaSeconds t0 s) by now rewrite Hs1.
  split; [exact Hst|].
  change (frames (t0 :: rest) s1) with (frames rest (nextFrame t0 s1)).
  destruct (nextFrame_tracked cl (rafNext s) t0 s1 Han Hr Hf)
    as (Hnx & _ & Hdone & _).
  rewrite Hp1, Hd1 in *.
  assert (Hge : 1 <= 1 + deltaProgress cl (deltaSeconds t0 s)).
  { apply num_le_add_nonneg. now apply deltaProgress_nonneg. }
  rewrite (Math_min_1_ge _ Hge) in *.
  destruct (Hdone (Qcle_refl _)) as (Ha & Hb & Hc' & Hd).
  rewrite (frames_stopped rest _ Hc'). now repeat split.
Qed.

Lemma start_after_completion_pauses_again_witness :
  progress finishedRun = 1
  /\ progress (frames [ofZ 5000; ofZ 5016] (startAnimation finishedRun)) = 1
  /\ animationState (frames [ofZ 5000; ofZ 5016] (startAnimation finishedRun))
     = paused.
Proof.
  assert (Hp : progress finishedRun = 1) by num_eval.
  destruct (start_after_completion_pauses_again finishedRun (ofZ 5000)
              [ofZ 5016]) as (_ & H1 & H2 & _).
  - left. split; reflexivity.
  - exact Hp.
  - vm_compute. lia.
  - num_neq.
  - num_eval.
  - num_eval.
  - now repeat split.
Defined.

(** ** What holds in every reachable state *)

Lemma reachable_run (getTotalLength : list PathCmd -> num)
  (evs : list Event) (s : State) :
  reachable getTotalLength s ->
  admissible_run getTotalLength evs s ->
  reachable getTotalLength (run getTotalLength evs s).
Proof.
  revert s. induction evs as [|ev rest IH]; intros s Hre Had; [exact Hre|].
  destruct Had as [H1 H2]. unfold run in *. cbn [fold_left].
  apply IH; [|exact H2]. now apply reachable_step.
Qed.

Lemma twoPoints_reachable : reachable measure100 twoPoints.
Proof.
  unfold twoPoints. apply reachable_run; [apply reachable_init|].
  cbn [admissible_run admissible].
  split; [|split; [|exact I]].
  - split; [exact canvas_mounted|]. split; [discriminate|]. intros [].
  - split; [exact canvas_mounted|]. split; [discriminate|].
    vm_compute. intros [H | []]. discriminate.
Qed.

Lemma midRun_reachable : reachable measure100 midRun.
Proof.
  unfold midRun. apply reachable_run; [exact twoPoints_reachable|].
  cbn [admissible_run admissible].
  split; [exact I|]. split; [vm_compute; exact I|].
  split; [|exact I].
  vm_compute. discriminate.
Qed.

(** X6: in every reachable state at most one callback is pending, it is
    the one whose handle [frameRef] holds, and a callback is pending
    exactly when the state is [running]: starting again, pausing,
    resetting or editing the path never leaves a second loop behind. *)
Theorem single_animation_loop :
  forall (getTotalLength : list PathCmd -> num) (s : State),
    reachable getTotalLength s ->
    (List.length (rafCallbacks s) <= 1)%nat
    /\ (forall h cl, In (h, cl) (rafCallbacks s) -> frameRef s = Some h)
    /\ (rafCallbacks s <> [] <-> animationState s = running).
Proof.
  intros gtl s Hre. pose proof (reachable_Inv gtl s Hre) as HI.
  destruct (inv_frame s HI) as [[Hr Han] | (h & cl & Hr & Hf & Han & _)];
    rewrite Hr.
  - split; [cbn; lia|]. split; [intros h cl []|]. split.
    + intros H. now contradiction H.
    + intros H. apply (inv_running s HI) in H. congruence.
  - split; [cbn; lia|]. split.
    + intros h' cl' [[= <- <-] | []]. exact Hf.
    + split; [intros _; now apply (inv_running s HI) | discriminate].
Qed.

Lemma single_animation_loop_witness :
  (List.length (rafCallbacks midRun) <= 1)%nat
  /\ (rafCallbacks midRun <> [] <-> animationState midRun = running).
Proof.
  destruct (single_animation_loop measure100 midRun midRun_reachable)
    as (H1 & _ & H2).
  now split.
Defined.

Lemma measuredLength_points (getTotalLength : list PathCmd -> num)
  (pts : list ChartPoint) :
  match pts with
  | [] => 0
  | _ :: _ => getTotalLength (pathD pts)
  end = measuredLength getTotalLength (pathD pts).
Proof. now destruct pts. Qed.

Lemma commit_pathLength (getTotalLength : list PathCmd -> num)
  (pts : list ChartPoint) (s : State) :
  pathLength s = measuredLength getTotalLength (pathD (points s)) ->
  pathLength (commit getTotalLength (pathD (points s)) (set_points pts s))
  = measuredLength getTotalLength
      (pathD (points (commit getTotalLength (pathD (points s))
                        (set_points pts s)))).
Proof.
  intros H. rewrite commit_points. cbn [points set_points].
  unfold commit. cbn [points set_points].
  destruct (pathD_eqb_spec (pathD (points s)) (pathD pts)) as [E | _].
  - cbn [pathLength set_points]. now rewrite <- E.
  - unfold resetEffect. rewrite cancel_eq, measureEffect_eq.
    cbn [pathLength points set_points setPathLength set_raf set_frameRef
         setAnimationState set_progress set_lastTimestampRef
         set_isAnimatingRef].
    apply measuredLength_points.
Qed.

Lemma handle_pathLength (getTotalLength : list PathCmd -> num) (ev : Event)
  (s : State) :
  pathLength s = measuredLength getTotalLength (pathD (points s)) ->
  pathLength (handle getTotalLength ev s)
  = measuredLength getTotalLength
      (pathD (points (handle getTotalLength ev s))).
Proof.
  intros H.
  destruct ev as [rect uuid event | i | rect event | | | | | v | h timestamp];
    cbn [handle].
  - unfold handlePointerDown.
    destruct (findNearestPoint rect event (points s)); [exact H|].
    destruct (getRelativeCoordinates rect event) as [[rx ry]|]; [|exact H].
    now apply commit_pathLength.
  - exact H.
  - unfold handlePointerMove.
    destruct (falsy (draggingId s)); [exact H|].
    destruct (getRelativeCoordinates rect event) as [[rx ry]|]; [|exact H].
    now apply commit_pathLength.
  - exact H.
  - unfold startAnimation. destruct (_ || _); [exact H|].
    rewrite cancel_eq. exact H.
  - unfold pauseAnimation. rewrite cancel_eq. exact H.
  - unfold resetAnimation. rewrite cancel_eq. exact H.
  - exact H.
  - unfold animationFrame.
    destruct (find_handle h (rafCallbacks s)) as [cl|]; [|exact H].
    destruct (step_unchanged cl timestamp (cancelAnimationFrame h s))
      as (Hp & _ & Hl & _).
    rewrite Hp, Hl. exact H.
Qed.

(** X7: after any sequence of events, the stored path length is the
    measurement of the path of the current points, and 0 when there is
    no point: no event leaves a stale length behind. *)
Theorem pathLength_follows_points :
  forall (getTotalLength : list PathCmd -> num) (evs : list Event),
    pathLength (run getTotalLength evs initialState)
    = measuredLength getTotalLength
        (pathD (points (run getTotalLength evs initialState)))
    /\ (points (run getTotalLength evs initialState) = [] ->
        pathLength (run getTotalLength evs initialState) = 0).
Proof.
  intros gtl evs.
  assert (H : forall s,
             pathLength s = measuredLength gtl (pathD (points s)) ->
             pathLength (run gtl evs s)
             = measuredLength gtl (pathD (points (run gtl evs s)))).
  { induction evs as [|ev rest IH]; intros s Hs; [exact Hs|].
    unfold run in *. cbn [fold_left]. apply IH.
    now apply handle_pathLength. }
  specialize (H initialState eq_refl).
  split; [exact H|].
  intros E. rewrite H, E. reflexivity.
Qed.

Lemma reachable_pathLength (getTotalLength : list PathCmd -> num)
  (s : State) :
  reachable getTotalLength s ->
  pathLength s = measuredLength getTotalLength (pathD (points s)).
Proof.
  intros H. induction H as [|s ev _ IH _]; [reflexivity|].
  now apply handle_pathLength.
Qed.

Lemma measuredLength_nonneg (getTotalLength : list PathCmd -> num)
  (d : list PathCmd) :
  (forall d', 0 <= getTotalLength d') ->
  0 <= measuredLength getTotalLength d.
Proof. intros H. destruct d; [apply Qcle_refl | apply H]. Qed.

(** X8: with a surface whose measurements are not negative, in every
    reachable state the dash offset of the path is between 0 and the
    path length, the marker is absent when the progress is 0, and a
    marker that is present is taken at an arc length that is positive
    and at most the path length. *)
Theorem rendered_values_in_range :
  forall (getTotalLength : list PathCmd -> num)
         (getPointAtLength : list PathCmd -> num -> num * num) (s : State),
    (forall d, 0 <= getTotalLength d) ->
    reachable getTotalLength s ->
    0 <= strokeDashoffset s <= pathLength s
    /\ (progress s = 0 -> animatedMarker getPointAtLength s = None)
    /\ (forall pt,
          animatedMarker getPointAtLength s = Some pt ->
          exists l, pt = getPointAtLength (pathD (points s)) l
                    /\ 0 < l /\ l <= pathLength s).
Proof.
  intros gtl gpl s Hpos Hre.
  pose proof (reachable_Inv gtl s Hre) as HI.
  destruct (inv_progress s HI) as [Hp0 Hp1].
  assert (Hl : 0 <= pathLength s).
  { rewrite (reachable_pathLength gtl s Hre).
    now apply measuredLength_nonneg. }
  assert (Hlp : 0 <= pathLength s * progress s)
    by now apply num_mul_nonneg.
  assert (Hle : pathLength s * progress s <= pathLength s).
  { rewrite <- (Qcmult_1_r (pathLength s)) at 2.
    rewrite (Qcmult_comm (pathLength s) (progress s)).
    rewrite (Qcmult_comm (pathLength s) 1).
    now apply Qcmult_le_compat_r. }
  split; [|split].
  - unfold strokeDashoffset.
    set (X := pathLength s * progress s) in *. clearbody X.
    split; to_Q; lra.
  - intros E. unfold animatedMarker. destruct (points s); [reflexivity|].
    rewrite E.
    assert (Hz : leb 0 0 = true) by (vm_compute; reflexivity).
    rewrite Hz. now rewrite orb_true_r.
  - intros pt. unfold animatedMarker. destruct (points s) as [|p rest];
      [discriminate|].
    destruct (eqb_spec (pathLength s) 0) as [E | Hne]; [discriminate|].
    destruct (leb_spec (progress s) 0) as [E | Hnp]; [discriminate|].
    cbn [orb]. intros [= <-].
    exists (pathLength s * progress s). split; [reflexivity|].
    split; [|exact Hle].
    apply Qcnot_le_lt. intros Hz.
    assert (Hz0 : pathLength s * progress s = 0) by now apply Qcle_antisym.
    apply Qcmult_integral in Hz0. destruct Hz0 as [Hz0 | Hz0].
    + now apply Hne.
    + apply Hnp. rewrite Hz0. apply Qcle_refl.
Qed.

Lemma rendered_values_in_range_witness :
  0 <= strokeDashoffset midRun <= pathLength midRun
  /\ strokeDashoffset midRun = ofZ 88.
Proof.
  destruct (rendered_values_in_range measure100 markerAt midRun)
    as (H & _ & _).
  - intros d. num_eval.
  - exact midRun_reachable.
  - split; [exact H | num_eval].
Defined.

(** X9: in every reachable state the ids of the points are pairwise
    different and not empty, a dragged id is the id of a point of the
    list, and every point has both coordinates in [[0,100]]. *)
Theorem point_list_well_formed :
  forall (getTotalLength : list PathCmd -> num) (s : State),
    reachable getTotalLength s ->
    NoDup (ids (points s))
    /\ ~ In EmptyString (ids (points s))
    /\ (forall d, draggingId s = Some d ->
                  exists p, In p (points s) /\ ChartPoint.id p = d)
    /\ Forall point_in_canvas (points s).
Proof.
  intros gtl s Hre. pose proof (reachable_Inv gtl s Hre) as HI.
  destruct (inv_ids s HI) as [Hnd Hne].
  split; [exact Hnd|]. split; [exact Hne|]. split.
  - intros d Hd. apply (inv_drag s HI) in Hd.
    apply in_map_iff in Hd. destruct Hd as (p & E & Hp). now exists p.
  - apply (inv_points s HI).
Qed.

Lemma point_list_well_formed_witness :
  NoDup (ids (points midRun)) /\ Forall point_in_canvas (points midRun).
Proof.
  destruct (point_list_well_formed measure100 midRun midRun_reachable)
    as (H1 & _ & _ & H2).
  now split.
Defined.

(** ** Where a click puts its point *)

Lemma clamp100_inside (v : num) : in_percent v -> clamp100 v = v.
Proof.
  intros [H0 H1]. unfold clamp100, Math_max.
  apply leb_true in H0. rewrite H0.
  unfold Math_min. destruct (leb (ofZ 100) v) eqn:E; [|reflexivity].
  apply leb_true in E. now apply Qcle_antisym.
Qed.

Lemma clamp100_below (v : num) : v <= 0 -> clamp100 v = 0.
Proof.
  intros H. unfold clamp100, Math_max.
  destruct (leb 0 v) eqn:E.
  - apply leb_true in E. assert (Hv : v = 0) by now apply Qcle_antisym.
    rewrite Hv. apply eqb_true. vm_compute. reflexivity.
  - apply eqb_true. vm_compute. reflexivity.
Qed.

Lemma clamp100_above (v : num) : ofZ 100 <= v -> clamp100 v = ofZ 100.
Proof.
  intros H. unfold clamp100, Math_max.
  assert (H0 : 0 <= v).
  { apply Qcle_trans with (ofZ 100); [apply zero_le_hundred | exact H]. }
  apply leb_true in H0. rewrite H0.
  unfold Math_min. apply leb_true in H. now rewrite H.
Qed.

(** The percentage of an offset [c - l] on an extent [w]. *)
Lemma percent_nonneg (c l w : num) :
  0 < w -> l <= c -> 0 <= (c - l) / w * ofZ 100.
Proof.
  intros Hw H. apply num_mul_nonneg; [|apply zero_le_hundred].
  apply num_div_nonneg; [now apply num_sub_nonneg | exact Hw].
Qed.

Lemma percent_nonpos (c l w : num) :
  0 < w -> c <= l -> (c - l) / w * ofZ 100 <= 0.
Proof.
  intros Hw H.
  assert (K : 0 <= (l - c) / w * ofZ 100) by now apply percent_nonneg.
  replace ((c - l) / w * ofZ 100) with (- ((l - c) / w * ofZ 100))
    by (unfold num, Qcdiv; ring).
  set (X := (l - c) / w * ofZ 100) in *. clearbody X. to_Q. lra.
Qed.

Lemma percent_le_hundred (c l w : num) :
  0 < w -> c <= l + w -> (c - l) / w * ofZ 100 <= ofZ 100.
Proof.
  intros Hw H.
  assert (Hw0 : w <> 0).
  { intros E. rewrite E in Hw. exact (Qclt_not_le _ _ Hw (Qcle_refl _)). }
  assert (K : 0 <= (l + w - c) / w * ofZ 100).
  { replace (l + w - c) with ((l + w) - c) by reflexivity.
    now apply percent_nonneg. }
  replace ((l + w - c) / w * ofZ 100)
    with (ofZ 100 - (c - l) / w * ofZ 100) in K
    by (unfold num; field; exact Hw0).
  set (X := (c - l) / w * ofZ 100) in *. clearbody X.
  set (C := ofZ 100) in *. clearbody C. to_Q. lra.
Qed.

Lemma percent_ge_hundred (c l w : num) :
  0 < w -> l + w <= c -> ofZ 100 <= (c - l) / w * ofZ 100.
Proof.
  intros Hw H.
  assert (Hw0 : w <> 0).
  { intros E. rewrite E in Hw. exact (Qclt_not_le _ _ Hw (Qcle_refl _)). }
  assert (K : 0 <= (c - (l + w)) / w * ofZ 100) by now apply percent_nonneg.
  replace ((c - (l + w)) / w * ofZ 100)
    with ((c - l) / w * ofZ 100 - ofZ 100) in K
    by (unfold num; field; exact Hw0).
  set (X := (c - l) / w * ofZ 100) in *. clearbody X.
  set (C := ofZ 100) in *. clearbody C. to_Q. lra.
Qed.



(** X10: a pointer outside the canvas rectangle gives the coordinate of
    the nearest edge: 0 to the left of it or above it, 100 to the right
    of it or below it; a pointer over the rectangle gives its exact
    percentage. *)
Theorem coordinates_saturate_at_edges :
  forall (rect : DOMRect) (event : PointerEvent),
    mounted (Some rect) ->
    exists rx ry,
      getRelativeCoordinates (Some rect) event = Some (rx, ry)
      /\ (clientX event <= DOMRect.left rect -> rx = 0)
      /\ (DOMRect.left rect + DOMRect.width rect <= clientX event ->
          rx = ofZ 100)
      /\ (clientY event <= DOMRect.top rect -> ry = 0)
      /\ (DOMRect.top rect + DOMRect.height rect <= clientY event ->
          ry = ofZ 100)
      /\ (inside rect event ->
          rx = (clientX event - DOMRect.left rect) / DOMRect.width rect
               * ofZ 100
          /\ ry = (clientY event - DOMRect.top rect) / DOMRect.height rect
                  * ofZ 100).
Proof.
  intros rect event [Hw Hh]. cbn [getRelativeCoordinates].
  eexists _, _. split; [reflexivity|].
  split; [|split; [|split; [|split]]].
  - intros H. now apply clamp100_below, percent_nonpos.
  - intros H. now apply clamp100_above, percent_ge_hundred.
  - intros H. now apply clamp100_below, percent_nonpos.
  - intros H. now apply clamp100_above, percent_ge_hundred.
  - intros (Hx0 & Hx1 & Hy0 & Hy1). split; apply clamp100_inside; split.
    + now apply percent_nonneg.
    + now apply percent_le_hundred.
    + now apply percent_nonneg.
    + now apply percent_le_hundred.
Qed.

Lemma coordinates_saturate_at_edges_witness :
  getRelativeCoordinates (Some canvas) (pointerAt 260 (-30))
  = Some (ofZ 100, 0).
Proof.
  destruct (coordinates_saturate_at_edges canvas (pointerAt 260 (-30))
              canvas_mounted)
    as (rx & ry & E & _ & Hx & Hy & _).
  rewrite E, Hx, Hy; [reflexivity | num_eval | num_eval].
Defined.





(** ** Which point a pointer-down grabs *)

(** [<=] followed by [<] gives [<] on doubles. *)
Lemma SFleb_ltb_trans (a b c : SpecFloat.spec_float) :
  SpecFloat.SFleb a b = true -> SpecFloat.SFltb b c = true ->
  SpecFloat.SFltb a c = true.
Proof. intros H1 H2. unfold SpecFloat.SFleb in *. sf_solve. Qed.

Lemma not_at_most_after (a b c : PrimFloat.float) :
  PrimFloat.ltb a b = false -> Double.below c b ->
  PrimFloat.leb a c = false.
Proof.
  intros H1 H2. destruct (PrimFloat.leb a c) eqn:E; [|reflexivity].
  unfold Double.below in H2.
  rewrite FloatAxioms.leb_spec in E. rewrite FloatAxioms.ltb_spec in H1, H2.
  rewrite (SFleb_ltb_trans _ _ _ E H2) in H1. discriminate.
Qed.

(** The loop of [findNearestPoint] on doubles keeps the first point
    whose computed distance is the smallest so far. *)
Lemma nearestLoop_first_computed (rect : Double.DOMRect)
  (event : Double.PointerEvent) (pts : list Double.ChartPoint) :
  forall (seen : list Double.ChartPoint)
         (acc : option Double.ChartPoint * PrimFloat.float),
    (forall q, In q seen ->
               PrimFloat.ltb (Double.distance rect event q) (snd acc) = false) ->
    (fst acc = None
     \/ exists p before after,
          fst acc = Some p /\ seen = before ++ p :: after
          /\ snd acc = Double.distance rect event p
          /\ forall q, In q before ->
                       PrimFloat.leb (Double.distance rect event q)
                         (Double.distance rect event p) = false) ->
    (forall q, In q (seen ++ pts) ->
               PrimFloat.ltb (Double.distance rect event q)
                 (snd (Double.nearestLoop rect event pts acc)) = false)
    /\ (fst (Double.nearestLoop rect event pts acc) = None
        \/ exists p before after,
             fst (Double.nearestLoop rect event pts acc) = Some p
             /\ seen ++ pts = before ++ p :: after
             /\ snd (Double.nearestLoop rect event pts acc)
                = Double.distance rect event p
             /\ forall q, In q before ->
                          PrimFloat.leb (Double.distance rect event q)
                            (Double.distance rect event p) = false).
Proof.
  induction pts as [|point rest IH]; intros seen acc Hmin Hacc.
  - rewrite app_nil_r. cbn [Double.nearestLoop]. now split.
  - cbn [Double.nearestLoop].
    replace (seen ++ point :: rest) with ((seen ++ [point]) ++ rest)
      by (rewrite <- app_assoc; reflexivity).
    destruct (PrimFloat.ltb (Double.distance rect event point) (snd acc))
      eqn:E; apply IH; cbn [fst snd].
    + intros q Hq. apply in_app_or in Hq. destruct Hq as [Hq | [<- | []]].
      * exact (not_below_after _ _ _ (Hmin q Hq) E).
      * apply below_irrefl.
    + right. exists point, seen, []. split; [reflexivity|].
      split; [reflexivity|]. split; [reflexivity|].
      intros q Hq. exact (not_at_most_after _ _ _ (Hmin q Hq) E).
    + intros q Hq. apply in_app_or in Hq. destruct Hq as [Hq | [<- | []]];
        [now apply Hmin | exact E].
    + destruct Hacc as [H | (p & before & after & H1 & H2 & H3 & H4)];
        [now left|].
      right. exists p, before, (after ++ [point]). split; [exact H1|].
      split; [rewrite H2, <- app_assoc; reflexivity|]. now split.
Qed.

(** X12: the point that [findNearestPoint] returns is the first point
    of the list whose computed distance is the smallest: no point before
    it has a computed distance below or equal to its own, and no point
    after it has a computed distance below its own. *)
Theorem findNearestPoint_returns_first_smallest_computed :
  forall (rect : Double.DOMRect) (event : Double.PointerEvent)
         (pts : list Double.ChartPoint) (p : Double.ChartPoint),
    Double.findNearestPoint (Some rect) event pts = Some p ->
    exists before after,
      pts = before ++ p :: after
      /\ (forall q, In q before ->
                    PrimFloat.leb (Double.distance rect event q)
                      (Double.distance rect event p) = false)
      /\ (forall q, In q after ->
                    PrimFloat.ltb (Double.distance rect event q)
                      (Double.distance rect event p) = false).
Proof.
  intros rect event pts p H.
  unfold Double.findNearestPoint in H.
  destruct (nearestLoop_first_computed rect event pts []
              (None, PrimFloat.infinity)) as (Hmin & Hacc).
  - intros q [].
  - now left.
  - cbn [app] in *.
    destruct (Double.nearestLoop rect event pts (None, PrimFloat.infinity))
      as [nearest minDistance]. cbn [fst snd] in *.
    destruct (PrimFloat.ltb minDistance _); [|discriminate].
    subst nearest.
    destruct Hacc as [Hn | (p' & before & after & Hp & Hsplit & Hd & Hb)];
      [discriminate|].
    injection Hp as <-. exists before, after. split; [exact Hsplit|].
    split; [exact Hb|].
    intros q Hq. rewrite <- Hd. apply Hmin. rewrite Hsplit.
    apply in_or_app. right. now right.
Qed.

Lemma findNearestPoint_returns_first_smallest_computed_witness :
  exists before after,
    Double.points Double.twoClicks
    = before
        ++ hd (Double.mkPoint "" PrimFloat.zero PrimFloat.zero)
             (Double.points Double.twoClicks)
        :: after
    /\ (forall q, In q before ->
                  PrimFloat.leb
                    (Double.distance Double.canvas Double.between_twoClicks q)
                    (Double.distance Double.canvas Double.between_twoClicks
                       (hd (Double.mkPoint "" PrimFloat.zero PrimFloat.zero)
                          (Double.points Double.twoClicks))) = false)
    /\ (forall q, In q after ->
                  PrimFloat.ltb
                    (Double.distance Double.canvas Double.between_twoClicks q)
                    (Double.distance Double.canvas Double.between_twoClicks
                       (hd (Double.mkPoint "" PrimFloat.zero PrimFloat.zero)
                          (Double.points Double.twoClicks))) = false).
Proof.
  apply findNearestPoint_returns_first_smallest_computed.
  vm_compute. reflexivity.
Defined.

(** ** Repeated pointer-moves *)

Lemma movePoint_idempotent (d : option string) (rx ry : num)
  (p : ChartPoint) :
  movePoint d rx ry (movePoint d rx ry p) = movePoint d rx ry p.
Proof.
  unfold movePoint. destruct d as [i|]; [|reflexivity].
  destruct (String.eqb (ChartPoint.id p) i) eqn:E; [|now rewrite E].
  cbn [ChartPoint.id]. now rewrite E.
Qed.

Lemma set_points_same (s : State) : set_points (points s) s = s.
Proof. now destruct s. Qed.

Lemma commit_draggingId (getTotalLength : list PathCmd -> num)
  (prev : list PathCmd) (s : State) :
  draggingId (commit getTotalLength prev s) = draggingId s.
Proof.
  unfold commit. destruct (pathD_eqb prev (pathD (points s))); [reflexivity|].
  unfold resetEffect. rewrite cancel_eq, measureEffect_eq. reflexivity.
Qed.

Lemma commit_unchanged_points (getTotalLength : list PathCmd -> num)
  (s : State) :
  commit getTotalLength (pathD (points s)) (set_points (points s) s) = s.
Proof.
  unfold commit. cbn [points set_points].
  destruct (pathD_eqb_spec (pathD (points s)) (pathD (points s)))
    as [_ | H]; [apply set_points_same | now contradiction H].
Qed.

(** X13: a pointer-move repeated at the same position does nothing the
    second time: the dragged point is already there, [pathD] is
    unchanged and the effects do not run, so an animation started or
    paused in between is not reset by a pointer that does not move the
    point. *)
Theorem pointerMove_idempotent :
  forall (getTotalLength : list PathCmd -> num) (rect : option DOMRect)
         (event : PointerEvent) (s : State),
    handlePointerMove getTotalLength rect event
      (handlePointerMove getTotalLength rect event s)
    = handlePointerMove getTotalLength rect event s.
Proof.
  intros gtl rect event s.
  unfold handlePointerMove at 2.
  destruct (falsy (draggingId s)) eqn:Hf.
  - unfold handlePointerMove. now rewrite Hf.
  - destruct (getRelativeCoordinates rect event) as [[rx ry]|] eqn:Hr.
    + set (s1 := commit gtl (pathD (points s))
                   (set_points (map (movePoint (draggingId s) rx ry)
                                  (points s)) s)).
      assert (Hd : draggingId s1 = draggingId s)
        by (unfold s1; now rewrite commit_draggingId).
      assert (Hp : points s1 = map (movePoint (draggingId s) rx ry) (points s))
        by (unfold s1; now rewrite commit_points).
      unfold handlePointerMove. rewrite Hd, Hf, Hr.
      replace (map (movePoint (draggingId s) rx ry) (points s1))
        with (points s1).
      * apply commit_unchanged_points.
      * rewrite Hp, map_map. apply map_ext. intros p.
        symmetry. apply movePoint_idempotent.
    + unfold handlePointerMove. now rewrite Hf, Hr.
Qed.

(** ** The point list only grows *)

Lemma handle_ids_grow (getTotalLength : list PathCmd -> num) (ev : Event)
  (s : State) :
  exists added,
    ids (points (handle getTotalLength ev s)) = ids (points s) ++ added
    /\ (List.length added <= 1)%nat.
Proof.
  assert (Hsame : forall s', points s' = points s ->
                  exists added,
                    ids (points s') = ids (points s) ++ added
                    /\ (List.length added <= 1)%nat).
  { intros s' E. exists []. rewrite E, app_nil_r. split; [reflexivity|].
    cbn. lia. }
  destruct ev as [rect uuid event | i | rect event | | | | | v | h timestamp];
    cbn [handle]; try (apply Hsame; reflexivity).
  - unfold handlePointerDown.
    destruct (findNearestPoint rect event (points s));
      [apply Hsame; reflexivity|].
    destruct (getRelativeCoordinates rect event) as [[rx ry]|];
      [|apply Hsame; reflexivity].
    exists [uuid]. rewrite commit_points. cbn [points set_points].
    unfold ids. rewrite map_app. split; [reflexivity | cbn; lia].
  - unfold handlePointerMove.
    destruct (falsy (draggingId s)); [apply Hsame; reflexivity|].
    destruct (getRelativeCoordinates rect event) as [[rx ry]|];
      [|apply Hsame; reflexivity].
    exists []. rewrite commit_points. cbn [points set_points].
    rewrite ids_movePoint, app_nil_r. split; [reflexivity | cbn; lia].
  - apply Hsame. unfold startAnimation. destruct (_ || _); [reflexivity|].
    now rewrite cancel_eq.
  - apply Hsame. unfold pauseAnimation. now rewrite cancel_eq.
  - apply Hsame. unfold resetAnimation. now rewrite cancel_eq.
  - apply Hsame. apply animationFrame_points.
Qed.

(** X14: no event removes or reorders a point.  After any sequence of
    events the ids of the points begin with the ids that were there, in
    the same order, followed by at most one new id per event. *)
Theorem points_only_grow :
  forall (getTotalLength : list PathCmd -> num) (evs : list Event)
         (s : State),
    exists added,
      ids (points (run getTotalLength evs s)) = ids (points s) ++ added
      /\ (List.length added <= List.length evs)%nat.
Proof.
  intros gtl evs. induction evs as [|ev rest IH]; intros s.
  - exists []. cbn. rewrite app_nil_r. split; [reflexivity | lia].
  - destruct (handle_ids_grow gtl ev s) as (a1 & E1 & L1).
    destruct (IH (handle gtl ev s)) as (a2 & E2 & L2).
    exists (a1 ++ a2). unfold run in *. cbn [fold_left].
    rewrite E2, E1, <- app_assoc. split; [reflexivity|].
    rewrite length_app. cbn [List.length]. lia.
Qed.
